(** * christmas-memory-tree: placement and damped animation of [src/App.tsx]

    A shallow embedding of the procedural placement functions
    ([getPhyllotaxisPosition], [randomVectorInSphere]), of the two
    per-frame callbacks ([NeedleParticles] and [PhotoParticle]) and of
    the upload handler of [App], followed by the properties of the
    specification that concern them.

    JavaScript numbers are idealised as real numbers.  The only place
    where the source can leave the finite numbers on finite inputs is the
    quotient [index / total]; that quotient is tracked with the type [js]
    below.  [Math.random] is a global source of uniforms: it is modelled
    as a fixed sequence [draws] together with the count of draws already
    consumed, threaded through the [Rand] monad. *)

From Stdlib Require Import Reals Lra Lia List String Arith Bool.
Import ListNotations.

Local Open Scope R_scope.

(** ** JavaScript numeric helpers *)

(** A value that the source computes from numbers: either built from
    finite numbers only, or [NonFinite] when NaN or an infinity produced
    by a zero divisor has flowed into it. *)
Inductive js (A : Type) : Type :=
| Finite (a : A)
| NonFinite.

Arguments Finite {A} a.
Arguments NonFinite {A}.

Definition js_map {A B : Type} (f : A -> B) (v : js A) : js B :=
  match v with
  | Finite a => Finite (f a)
  | NonFinite => NonFinite
  end.

Definition is_finite {A : Type} (v : js A) : bool :=
  match v with
  | Finite _ => true
  | NonFinite => false
  end.

(** [a / b] on finite operands: IEEE-754 gives NaN for [0 / 0] and an
    infinity for [a / 0]; nothing is thrown. *)
Definition js_div (a b : R) : js R :=
  if Req_dec_T b 0 then NonFinite else Finite (a / b).

(** [Math.cbrt]: the real cube root, odd in its argument. *)
Definition cbrt (a : R) : R :=
  match total_order_T a 0 with
  | inleft (left _) => - Rpower (- a) (/ 3)
  | inleft (right _) => 0
  | inright _ => Rpower a (/ 3)
  end.

(** ** THREE.Vector3 *)

Module Vector3.

Record t : Type := mk { x : R; y : R; z : R }.

(** [v.add(w)]. *)
Definition add (v w : t) : t :=
  mk (x v + x w) (y v + y w) (z v + z w).

(** [v.length()]. *)
Definition length (v : t) : R :=
  sqrt (x v * x v + y v * y v + z v * z v).

(** Distance of [v] from the vertical axis of the tree. *)
Definition radius (v : t) : R :=
  sqrt (x v * x v + z v * z v).

End Vector3.

Abbreviation Vec3 := Vector3.mk.

(** ** THREE.MathUtils *)

(** [THREE.MathUtils.lerp(x, y, t)], the linear interpolation of the
    three.js dependency. *)
Definition lerp (a b t : R) : R := (1 - t) * a + t * b.

(** Modelled from the spec: [THREE.MathUtils.damp] belongs to the three.js
    dependency and is not part of [src/]; section 4.2 of the specification
    gives it as [target + (current - target) * exp(-rate * deltaTime)]. *)
Definition damp (current target rate deltaTime : R) : R :=
  target + (current - target) * exp (- rate * deltaTime).

(** ** Math.random *)

(** A computation that may call [Math.random]: it receives the number of
    draws made so far and returns its result with the new count. *)
Definition Rand (A : Type) : Type := nat -> A * nat.

Definition ret {A : Type} (a : A) : Rand A := fun n => (a, n).

Definition bind {A B : Type} (c : Rand A) (k : A -> Rand B) : Rand B :=
  fun n => let (a, n') := c n in k a n'.

Notation "x <- c ;; k" := (bind c (fun x => k))
  (at level 61, c at next level, right associativity).

(** [Array.from({ length }, (_, i) => f(i))]: the callback runs for
    [i = start, start + 1, ...] in order. *)
Fixpoint arrayFrom {A : Type} (f : nat -> Rand A) (start length : nat)
    : Rand (list A) :=
  match length with
  | O => ret []
  | S length' =>
      a <- f start ;;
      rest <- arrayFrom f (S start) length' ;;
      ret (a :: rest)
  end.

(** [array.forEach((a, i) => ...)] as a left-to-right pass over a state. *)
Fixpoint forEach {A S : Type} (f : A -> nat -> S -> S)
    (l : list A) (i : nat) (s : S) : S :=
  match l with
  | [] => s
  | a :: l' => forEach f l' (Datatypes.S i) (f a i s)
  end.

(** [array.map((a, i) => ...)]. *)
Fixpoint mapi {A B : Type} (f : A -> nat -> B) (l : list A) (i : nat)
    : list B :=
  match l with
  | [] => []
  | a :: l' => f a i :: mapi f l' (S i)
  end.

(** Writing slot [i] of a typed array; a write past the end is dropped. *)
Fixpoint setAt {A : Type} (l : list A) (i : nat) (a : A) : list A :=
  match l, i with
  | [], _ => []
  | _ :: l', O => a :: l'
  | b :: l', S i' => b :: setAt l' i' a
  end.

(** ** 1. Math and utilities *)

Section Placement.

(** The successive results of [Math.random()]. *)
Variable draws : nat -> R.

Definition random : Rand R := fun n => (draws n, S n).

Definition getPhyllotaxisPosition
    (index total maxRadius heightScale : R) : Rand (js Vector3.t) :=
  let angle := index * 137.5 * (PI / 180) in
  let normalizedHeight := js_div index total in
  rnd <- random ;;
  ret (js_map
         (fun normalizedHeight =>
            let currentRadius :=
              maxRadius * (1 - normalizedHeight) * (0.8 + rnd * 0.4) in
            let x := cos angle * currentRadius in
            let z := sin angle * currentRadius in
            let y := normalizedHeight * heightScale - heightScale / 2 in
            Vec3 x y z)
         normalizedHeight).

Definition randomVectorInSphere (radius : R) : Rand Vector3.t :=
  u <- random ;;
  v <- random ;;
  let theta := 2 * PI * u in
  let phi := acos (2 * v - 1) in
  w <- random ;;
  let r := cbrt w * radius in
  ret (Vec3 (r * sin phi * cos theta)
            (r * sin phi * sin theta)
            (r * cos phi)).

End Placement.

(** The blend factor both animators derive from the mode string. *)
Definition targetT (mode : string) : R :=
  if String.eqb mode "TREE_SHAPE" then 1 else 0.

(** [Matrix4.compose(position, rotation, scale)], kept as its arguments. *)
Record Matrix4 : Type := compose {
  m_position : Vector3.t;
  m_rotation : Vector3.t;
  m_scale : Vector3.t
}.

Definition origin : Vector3.t := Vec3 0 0 0.

Definition identity : Matrix4 := compose origin origin (Vec3 1 1 1).

(** ** 2. Needle particle system (InstancedMesh) *)

Module NeedleParticles.

Record particle : Type := {
  treePos : Vector3.t;
  scatterPos : Vector3.t;
  speed : R;
  rotationOffset : R;
  scale : R
}.

Section Data.

Variable draws : nat -> R.

(** The callback of [Array.from] in the [data] memo. *)
Definition particleAt (count i : nat) : Rand (js particle) :=
  tree <- getPhyllotaxisPosition draws (INR i) (INR count) 4.5 10 ;;
  scatter <- randomVectorInSphere draws 18 ;;
  r1 <- random draws ;;
  r2 <- random draws ;;
  r3 <- random draws ;;
  ret (js_map
         (fun tree =>
            {| treePos := tree;
               scatterPos := scatter;
               speed := r1 * 0.2 + 0.1;
               rotationOffset := r2 * PI;
               scale := r3 * 0.6 + 0.4 |})
         tree).

Definition data (count : nat) : Rand (list (js particle)) :=
  arrayFrom (particleAt count) 0 count.

End Data.

(** [dummy]: the single [THREE.Object3D] created once by the component. *)
Record Object3D : Type := {
  position : Vector3.t;
  rotation : Vector3.t;
  obj_scale : Vector3.t;
  matrix : Matrix4
}.

Definition newObject3D : Object3D :=
  {| position := origin;
     rotation := origin;
     obj_scale := Vec3 1 1 1;
     matrix := identity |}.

Record InstancedMesh : Type := {
  instanceMatrix : list Matrix4;
  needsUpdate : bool
}.

Definition newInstancedMesh (count : nat) : InstancedMesh :=
  {| instanceMatrix := repeat identity count; needsUpdate := false |}.

Definition setMatrixAt (i : nat) (m : Matrix4) (mesh : InstancedMesh)
    : InstancedMesh :=
  {| instanceMatrix := setAt (instanceMatrix mesh) i m;
     needsUpdate := needsUpdate mesh |}.

(** What the component keeps between frames. *)
Record state : Type := {
  dummy : Object3D;
  meshRef : option InstancedMesh
}.

(** The body of [data.forEach] inside [useFrame]. *)
Definition animate (targetT time delta : R) (p : particle) (i : nat)
    (s : Object3D * InstancedMesh) : Object3D * InstancedMesh :=
  let (dummy, mesh) := s in
  let px :=
    damp (Vector3.x (position dummy))
         (lerp (Vector3.x (scatterPos p)) (Vector3.x (treePos p)) targetT)
         1.5 delta in
  let py :=
    damp (Vector3.y (position dummy))
         (lerp (Vector3.y (scatterPos p)) (Vector3.y (treePos p)) targetT)
         1.5 delta in
  let pz :=
    damp (Vector3.z (position dummy))
         (lerp (Vector3.z (scatterPos p)) (Vector3.z (treePos p)) targetT)
         1.5 delta in
  let rot :=
    Vec3 (sin (time * speed p * 0.5 + rotationOffset p) * 0.2)
         (time * speed p + rotationOffset p)
         (cos (time * speed p * 0.5 + rotationOffset p) * 0.2) in
  let sc := Vec3 (scale p) (scale p) (scale p) in
  let m := compose (Vec3 px py pz) rot sc in
  ({| position := Vec3 px py pz;
      rotation := rot;
      obj_scale := sc;
      matrix := m |},
   setMatrixAt i m mesh).

Definition useFrame (mode : string) (data : list particle)
    (time delta : R) (st : state) : state :=
  match meshRef st with
  | None => st
  | Some mesh =>
      let targetT := targetT mode in
      let (dummy', mesh') :=
        forEach (animate targetT time delta) data 0 (dummy st, mesh) in
      {| dummy := dummy';
         meshRef := Some {| instanceMatrix := instanceMatrix mesh';
                            needsUpdate := true |} |}
  end.

(** The position last written to slot [i] of the batch. *)
Definition shown (i : nat) (st : state) : Vector3.t :=
  match meshRef st with
  | None => origin
  | Some mesh => m_position (nth i (instanceMatrix mesh) identity)
  end.

(** The point a particle is damped towards for the blend factor [t]. *)
Definition blend (t : R) (p : particle) : Vector3.t :=
  Vec3 (lerp (Vector3.x (scatterPos p)) (Vector3.x (treePos p)) t)
       (lerp (Vector3.y (scatterPos p)) (Vector3.y (treePos p)) t)
       (lerp (Vector3.z (scatterPos p)) (Vector3.z (treePos p)) t).

(** The instantaneous target of a particle. *)
Definition target (mode : string) (p : particle) : Vector3.t :=
  blend (targetT mode) p.

End NeedleParticles.

(** [damp] on each axis of a position. *)
Definition damp3 (current target : Vector3.t) (rate deltaTime : R)
    : Vector3.t :=
  Vec3 (damp (Vector3.x current) (Vector3.x target) rate deltaTime)
       (damp (Vector3.y current) (Vector3.y target) rate deltaTime)
       (damp (Vector3.z current) (Vector3.z target) rate deltaTime).

(** ** 3. A single photo particle *)

Module PhotoParticle.

(** [BaseParticleData]. *)
Record BaseParticleData : Type := {
  treePos : Vector3.t;
  scatterPos : Vector3.t;
  speed : R;
  rotationOffset : R
}.

(** One [useMemo] slot: the dependency values it was computed for and
    the value it holds. *)
Record memo (A : Type) : Type := {
  deps : nat * nat;
  value : A
}.

Arguments deps {A} m.
Arguments value {A} m.

Definition sameDeps (d1 d2 : nat * nat) : bool :=
  Nat.eqb (fst d1) (fst d2) && Nat.eqb (snd d1) (snd d2).

(** [useMemo(factory, [index, total])]: the factory runs on the first
    render and whenever a dependency differs from the stored one. *)
Definition useMemo {A : Type} (factory : Rand A) (d : nat * nat)
    (slot : option (memo A)) : Rand (memo A) :=
  match slot with
  | Some m =>
      if sameDeps (deps m) d then ret m
      else (v <- factory ;; ret {| deps := d; value := v |})
  | None => v <- factory ;; ret {| deps := d; value := v |}
  end.

Section Data.

Variable draws : nat -> R.

(** The factory of the [data] memo. *)
Definition factory (index total : nat) : Rand (js BaseParticleData) :=
  tree <- getPhyllotaxisPosition draws (INR index) (INR total) 5.5 11 ;;
  scatter <- randomVectorInSphere draws 20 ;;
  r1 <- random draws ;;
  r2 <- random draws ;;
  ret (js_map
         (fun tree =>
            {| treePos := Vector3.add tree (Vec3 0 0.5 0);
               scatterPos := scatter;
               speed := r1 * 0.1 + 0.05;
               rotationOffset := r2 * PI |})
         tree).

(** The [data] of one render of the component. *)
Definition data (index total : nat)
    (slot : option (memo (js BaseParticleData)))
    : Rand (memo (js BaseParticleData)) :=
  useMemo (factory index total) (index, total) slot.

End Data.

(** The [THREE.Mesh] behind [ref]: its own position, and its
    orientation as the last [lookAt] followed by the last [rotateZ]. *)
Record Mesh : Type := {
  position : Vector3.t;
  lookAt : Vector3.t;
  rotateZ : R
}.

Definition newMesh : Mesh :=
  {| position := origin; lookAt := Vec3 0 0 1; rotateZ := 0 |}.

Definition useFrame (mode : string) (data : BaseParticleData)
    (camera : Vector3.t) (time delta : R) (ref : option Mesh)
    : option Mesh :=
  match ref with
  | None => None
  | Some current =>
      let targetT := targetT mode in
      let px :=
        damp (Vector3.x (position current))
             (lerp (Vector3.x (scatterPos data)) (Vector3.x (treePos data))
                   targetT)
             1.2 delta in
      let py :=
        damp (Vector3.y (position current))
             (lerp (Vector3.y (scatterPos data)) (Vector3.y (treePos data))
                   targetT)
             1.2 delta in
      let pz :=
        damp (Vector3.z (position current))
             (lerp (Vector3.z (scatterPos data)) (Vector3.z (treePos data))
                   targetT)
             1.2 delta in
      Some {| position := Vec3 px py pz;
              lookAt := camera;
              rotateZ := sin (time * speed data + rotationOffset data)
                         * 0.1 |}
  end.

(** The instantaneous target of a photo. *)
Definition target (mode : string) (d : BaseParticleData) : Vector3.t :=
  Vec3 (lerp (Vector3.x (scatterPos d)) (Vector3.x (treePos d)) (targetT mode))
       (lerp (Vector3.y (scatterPos d)) (Vector3.y (treePos d)) (targetT mode))
       (lerp (Vector3.z (scatterPos d)) (Vector3.z (treePos d)) (targetT mode)).

End PhotoParticle.

(** ** 4. Main application *)

Module App.

Record state : Type := {
  mode : string;
  imageUrls : list string
}.

Definition initial : state := {| mode := "SCATTERED"; imageUrls := [] |}.

(** The props of one rendered [PhotoParticle]. *)
Record photoProps : Type := {
  p_mode : string;
  url : string;
  index : nat;
  total : nat
}.

(** [imageUrls.map((url, index) => <PhotoParticle ... />)]. *)
Definition photos (st : state) : list photoProps :=
  mapi (fun u i =>
          {| p_mode := mode st;
             url := u;
             index := i;
             total := List.length (imageUrls st) |})
       (imageUrls st) 0.

(** The needle count passed by [App]. *)
Definition count : nat := 6000.

Section Upload.

Variable File : Type.
Variable createObjectURL : File -> string.

(** [files] is [event.target.files], which may be [null]. *)
Definition handleImageUpload (files : option (list File)) (st : state)
    : state :=
  match files with
  | Some files =>
      let newUrls := map createObjectURL files in
      {| mode := "SCATTERED"; imageUrls := imageUrls st ++ newUrls |}
  | None => st
  end.

End Upload.

(** The [onClick] of the toggle button. *)
Definition toggle (st : state) : state :=
  {| mode := if String.eqb (mode st) "SCATTERED"
             then "TREE_SHAPE" else "SCATTERED";
     imageUrls := imageUrls st |}.

End App.

(** ** Scenes used in the examples below *)

(** Every draw is 0.5, so every jitter factor is 1.0. *)
Definition halves : nat -> R := fun _ => 0.5.

(** Six draws equal to 0, then 0.5 for ever. *)
Definition zerosThenHalves : nat -> R :=
  fun n => if Nat.ltb n 6 then 0 else 0.5.

(** Two needles resting in the scattered layout, one at the origin and
    one at distance 1 on the x axis, animated for two frames of one
    second each from a fresh [dummy] and a fresh batch. *)
Module TwoNeedles.

Import NeedleParticles.

Definition p0 : particle :=
  {| treePos := Vec3 0 1 0;
     scatterPos := origin;
     speed := 0.1;
     rotationOffset := 0;
     scale := 1 |}.

Definition p1 : particle :=
  {| treePos := Vec3 0 2 0;
     scatterPos := Vec3 1 0 0;
     speed := 0.1;
     rotationOffset := 0;
     scale := 1 |}.

Definition data : list particle := [p0; p1].

Definition start : state :=
  {| dummy := newObject3D; meshRef := Some (newInstancedMesh 2) |}.

Definition frame1 : state := useFrame "SCATTERED" data 1 1 start.

Definition frame2 : state := useFrame "SCATTERED" data 2 1 frame1.

End TwoNeedles.

(** The whole matrix last written to slot [i] of the needle batch. *)
Definition needleSlot (i : nat) (st : NeedleParticles.state) : Matrix4 :=
  match NeedleParticles.meshRef st with
  | None => identity
  | Some mesh => nth i (NeedleParticles.instanceMatrix mesh) identity
  end.

(** The slots of the needle batch from index [i] on. *)
Definition needleSlotsFrom (i : nat) (st : NeedleParticles.state)
    : list Matrix4 :=
  match NeedleParticles.meshRef st with
  | None => []
  | Some mesh => skipn i (NeedleParticles.instanceMatrix mesh)
  end.

(** ** The rest of [App]: what it shows and what it releases *)

Module AppView.

(** The text of the toggle button. *)
Definition buttonLabel (st : App.state) : string :=
  if String.eqb (App.mode st) "SCATTERED"
  then "GATHER MEMORIES" else "RELEASE TO SKY".

(** The [autoRotate] flag handed to [OrbitControls]. *)
Definition autoRotate (st : App.state) : bool :=
  String.eqb (App.mode st) "TREE_SHAPE".

(** The number after "Loaded Photos:". *)
Definition loadedPhotos (st : App.state) : nat :=
  List.length (App.imageUrls st).

End AppView.

(** The effect of [App] registers a cleanup that revokes every url of the
    [imageUrls] array it was created with; React runs that cleanup when a
    later render carries another array, and on unmount. *)
Module ObjectURLs.

(** The application state together with the urls passed so far to
    [URL.revokeObjectURL], in call order. *)
Record world : Type := {
  app : App.state;
  revoked : list string
}.

Definition mount : world := {| app := App.initial; revoked := [] |}.

(** [imageUrls.forEach((url) => URL.revokeObjectURL(url))]. *)
Definition cleanup (imageUrls : list string) (revoked : list string)
    : list string :=
  forEach (fun url _ done => done ++ [url]) imageUrls 0 revoked.

Section Upload.

Variable File : Type.
Variable createObjectURL : File -> string.

(** One change event of the file input.  With [files] present the
    handler stores a new array, so the cleanup of the previous render
    runs on the array that render held. *)
Definition upload (files : option (list File)) (w : world) : world :=
  match files with
  | Some _ =>
      {| app := App.handleImageUpload File createObjectURL files (app w);
         revoked := cleanup (App.imageUrls (app w)) (revoked w) |}
  | None => w
  end.

End Upload.

(** One click on the toggle button: the array is the same, the effect
    is left alone. *)
Definition click (w : world) : world :=
  {| app := App.toggle (app w); revoked := revoked w |}.

(** Unmounting [App]. *)
Definition unmount (w : world) : list string :=
  cleanup (App.imageUrls (app w)) (revoked w).

End ObjectURLs.

(** * Properties *)

(** ** Arithmetic of the helpers *)

Lemma cbrt_pos (a : R) : 0 < a -> cbrt a = Rpower a (/ 3).
Proof.
  intros Ha. unfold cbrt.
  destruct (total_order_T a 0) as [[Hlt | Heq] | Hgt];
    [lra | lra | reflexivity].
Qed.

Lemma cbrt_0 : cbrt 0 = 0.
Proof.
  unfold cbrt.
  destruct (total_order_T 0 0) as [[Hlt | Heq] | Hgt];
    [lra | reflexivity | lra].
Qed.

Lemma cbrt_nonneg (a : R) : 0 <= a -> 0 <= cbrt a.
Proof.
  intros [Ha | Ha].
  - rewrite cbrt_pos by assumption.
    unfold Rpower. left. apply exp_pos.
  - subst a. rewrite cbrt_0. lra.
Qed.

Lemma cbrt_lt_1 (a : R) : 0 <= a < 1 -> cbrt a < 1.
Proof.
  intros [[Ha | Ha] Hlt].
  - rewrite cbrt_pos by assumption.
    apply Rlt_le_trans with (Rpower 1 (/ 3)).
    + apply Rlt_Rpower_l; lra.
    + unfold Rpower. rewrite ln_1, Rmult_0_r, exp_0. lra.
  - subst a. rewrite cbrt_0. lra.
Qed.

Lemma cbrt_cube (a : R) : cbrt a * cbrt a * cbrt a = a.
Proof.
  assert (Hpos : forall b, 0 < b ->
            Rpower b (/ 3) * Rpower b (/ 3) * Rpower b (/ 3) = b).
  { intros b Hb.
    rewrite <- !Rpower_plus.
    replace (/ 3 + / 3 + / 3) with 1 by lra.
    apply Rpower_1; assumption. }
  unfold cbrt.
  destruct (total_order_T a 0) as [[Hlt | Heq] | Hgt].
  - specialize (Hpos (- a) ltac:(lra)).
    replace (- Rpower (- a) (/ 3) * - Rpower (- a) (/ 3) * - Rpower (- a) (/ 3))
      with (- (Rpower (- a) (/ 3) * Rpower (- a) (/ 3) * Rpower (- a) (/ 3)))
      by ring.
    rewrite Hpos. ring.
  - subst a. ring.
  - apply Hpos. assumption.
Qed.

Lemma js_div_finite (a b : R) : b <> 0 -> js_div a b = Finite (a / b).
Proof.
  intros Hb. unfold js_div.
  destruct (Req_dec_T b 0) as [Heq | Hne]; [contradiction | reflexivity].
Qed.

Lemma js_div_zero (a : R) : js_div a 0 = NonFinite.
Proof.
  unfold js_div.
  destruct (Req_dec_T 0 0) as [Heq | Hne]; [reflexivity | contradiction].
Qed.

(** A point given in spherical coordinates lies at distance [r]. *)
Lemma spherical_square (r phi theta : R) :
  (r * sin phi * cos theta) * (r * sin phi * cos theta)
  + (r * sin phi * sin theta) * (r * sin phi * sin theta)
  + (r * cos phi) * (r * cos phi) = r * r.
Proof.
  pose proof (sin2_cos2 phi) as Hphi.
  pose proof (sin2_cos2 theta) as Htheta.
  unfold Rsqr in Hphi, Htheta.
  replace ((r * sin phi * cos theta) * (r * sin phi * cos theta)
           + (r * sin phi * sin theta) * (r * sin phi * sin theta)
           + (r * cos phi) * (r * cos phi))
    with (r * r * ((sin phi * sin phi)
                   * (sin theta * sin theta + cos theta * cos theta)
                   + cos phi * cos phi)) by ring.
  rewrite Htheta, Rmult_1_r, Hphi. ring.
Qed.

(** A point on a horizontal circle lies at distance [r] from the axis. *)
Lemma circle_square (r angle : R) :
  (cos angle * r) * (cos angle * r) + (sin angle * r) * (sin angle * r)
  = r * r.
Proof.
  pose proof (sin2_cos2 angle) as Hangle.
  unfold Rsqr in Hangle.
  replace ((cos angle * r) * (cos angle * r) + (sin angle * r) * (sin angle * r))
    with (r * r * (sin angle * sin angle + cos angle * cos angle)) by ring.
  rewrite Hangle. ring.
Qed.

(** ** The damping primitive *)

(** The three.js source writes [damp] as a [lerp] with weight
    [1 - exp(-lambda * dt)]; the two forms agree. *)
Lemma damp_as_lerp (current target rate dt : R) :
  damp current target rate dt
  = lerp current target (1 - exp (- rate * dt)).
Proof. unfold damp, lerp. ring. Qed.

Lemma damp_distance (current target rate dt : R) :
  damp current target rate dt - target
  = (current - target) * exp (- rate * dt).
Proof. unfold damp. ring. Qed.

Lemma damp_factor_lt_1 (rate dt : R) :
  0 < rate -> 0 < dt -> 0 < exp (- rate * dt) < 1.
Proof.
  intros Hr Hd. split; [apply exp_pos |].
  rewrite <- exp_0. apply exp_increasing.
  assert (0 < rate * dt) by (apply Rmult_lt_0_compat; assumption).
  lra.
Qed.

Lemma damp_at_target (target rate dt : R) :
  damp target target rate dt = target.
Proof. unfold damp. ring. Qed.

(** C5: damping over two consecutive sub-steps [t1] and [t2] with
    [t1 + t2 = t] gives exactly the value of one step of length [t]. *)
Theorem damp_step_size_independent (current target rate t t1 t2 : R) :
  t1 + t2 = t ->
  damp (damp current target rate t1) target rate t2
  = damp current target rate t.
Proof.
  intros <-. unfold damp.
  replace (- rate * (t1 + t2)) with (- rate * t1 + - rate * t2) by ring.
  rewrite exp_plus. ring.
Qed.

Lemma damp_step_size_independent_witness :
  damp (damp 2 5 1.5 1) 5 1.5 2 = damp 2 5 1.5 3.
Proof.
  apply (damp_step_size_independent 2 5 1.5 3 1 2). lra.
Defined.

(** C6, as stated, fails when the value already sits on its target: the
    distance stays 0 and does not strictly decrease. *)
Lemma damp_not_strict_at_target :
  ~ (forall current target rate deltaTime : R,
        0 < deltaTime -> 0 < rate ->
        Rabs (damp current target rate deltaTime - target)
        < Rabs (current - target)).
Proof.
  intros H. specialize (H 0 0 1 1 ltac:(lra) ltac:(lra)).
  rewrite damp_at_target in H. lra.
Qed.

(** C6 (amended): for [current <> target], [deltaTime > 0] and [rate > 0]
    the distance to the target strictly decreases. *)
Theorem damp_converges (current target rate deltaTime : R) :
  current <> target -> 0 < deltaTime -> 0 < rate ->
  Rabs (damp current target rate deltaTime - target)
  < Rabs (current - target).
Proof.
  intros Hne Hd Hr.
  rewrite damp_distance, Rabs_mult.
  destruct (damp_factor_lt_1 rate deltaTime Hr Hd) as [Hpos Hlt].
  rewrite (Rabs_pos_eq (exp _)) by lra.
  assert (0 < Rabs (current - target)) by (apply Rabs_pos_lt; lra).
  rewrite <- (Rmult_1_r (Rabs (current - target))) at 2.
  apply Rmult_lt_compat_l; assumption.
Qed.

Lemma damp_converges_witness :
  Rabs (damp 0 1 1.5 1 - 1) < Rabs (0 - 1).
Proof.
  apply (damp_converges 0 1 1.5 1); lra.
Defined.

(** ** The placement functions *)

Section PlacementFacts.

Variable draws : nat -> R.

Lemma getPhyllotaxisPosition_finite (index total maxRadius heightScale : R)
    (n : nat) :
  total <> 0 ->
  getPhyllotaxisPosition draws index total maxRadius heightScale n
  = (Finite
       (Vec3 (cos (index * 137.5 * (PI / 180))
              * (maxRadius * (1 - index / total) * (0.8 + draws n * 0.4)))
             (index / total * heightScale - heightScale / 2)
             (sin (index * 137.5 * (PI / 180))
              * (maxRadius * (1 - index / total) * (0.8 + draws n * 0.4)))),
     S n).
Proof.
  intros Ht. unfold getPhyllotaxisPosition, bind, random, ret.
  rewrite js_div_finite by assumption. reflexivity.
Qed.

Lemma getPhyllotaxisPosition_zero_total (index maxRadius heightScale : R)
    (n : nat) :
  getPhyllotaxisPosition draws index 0 maxRadius heightScale n
  = (NonFinite, S n).
Proof.
  unfold getPhyllotaxisPosition, bind, random, ret.
  rewrite js_div_zero. reflexivity.
Qed.

Lemma randomVectorInSphere_unfold (radius : R) (n : nat) :
  randomVectorInSphere draws radius n
  = (Vec3 (cbrt (draws (S (S n))) * radius
           * sin (acos (2 * draws (S n) - 1)) * cos (2 * PI * draws n))
          (cbrt (draws (S (S n))) * radius
           * sin (acos (2 * draws (S n) - 1)) * sin (2 * PI * draws n))
          (cbrt (draws (S (S n))) * radius
           * cos (acos (2 * draws (S n) - 1))),
     S (S (S n))).
Proof. reflexivity. Qed.

Lemma randomVectorInSphere_length (radius : R) (n : nat) :
  0 <= radius -> 0 <= draws (S (S n)) ->
  Vector3.length (fst (randomVectorInSphere draws radius n))
  = radius * cbrt (draws (S (S n))).
Proof.
  intros Hr Hw. rewrite randomVectorInSphere_unfold.
  unfold Vector3.length. cbn [fst Vector3.x Vector3.y Vector3.z].
  rewrite spherical_square, sqrt_square.
  - ring.
  - apply Rmult_le_pos; [apply cbrt_nonneg |]; assumption.
Qed.

Lemma randomVectorInSphere_inside (radius : R) (n : nat) :
  0 <= radius -> 0 <= draws (S (S n)) < 1 ->
  Vector3.length (fst (randomVectorInSphere draws radius n)) <= radius.
Proof.
  intros Hr Hw. rewrite randomVectorInSphere_length by lra.
  pose proof (cbrt_lt_1 _ Hw) as Hlt.
  pose proof (cbrt_nonneg (draws (S (S n))) ltac:(lra)) as Hge.
  rewrite <- (Rmult_1_r radius) at 2.
  apply Rmult_le_compat_l; lra.
Qed.

(** The horizontal distance of a formation position from the axis is
    its [currentRadius]. *)
Lemma getPhyllotaxisPosition_radius (index total maxRadius heightScale : R)
    (n : nat) (p : Vector3.t) :
  0 <= index < total -> 0 <= maxRadius -> 0 <= draws n ->
  fst (getPhyllotaxisPosition draws index total maxRadius heightScale n)
  = Finite p ->
  Vector3.radius p
  = maxRadius * (1 - index / total) * (0.8 + draws n * 0.4).
Proof.
  intros Hi HR Hd. rewrite getPhyllotaxisPosition_finite by lra.
  cbn [fst]. intros [= <-].
  unfold Vector3.radius. cbn [Vector3.x Vector3.z].
  rewrite circle_square. apply sqrt_square.
  assert (0 <= index / total < 1).
  { split.
    - apply Rmult_le_pos; [lra |]. left. apply Rinv_0_lt_compat. lra.
    - apply Rmult_lt_reg_r with total; [lra |].
      unfold Rdiv. rewrite Rmult_assoc, Rinv_l by lra. lra. }
  apply Rmult_le_pos; [apply Rmult_le_pos |]; lra.
Qed.

End PlacementFacts.

(** C7: with the jitter factor equal to 1.0 and [0 <= index < total] the
    height is [(index / total) * heightScale - heightScale / 2]; for
    [total = 10] and [heightScale = 10] it is -5 at index 0 and 4 at
    index 9; at index 0 the position is [(maxRadius, -heightScale/2, 0)]. *)
Theorem getPhyllotaxisPosition_fixed_jitter
    (draws : nat -> R) (n : nat) (index total maxRadius heightScale : R) :
  0.8 + draws n * 0.4 = 1 ->
  0 <= index < total ->
  exists p : Vector3.t,
    fst (getPhyllotaxisPosition draws index total maxRadius heightScale n)
    = Finite p
    /\ Vector3.y p = index / total * heightScale - heightScale / 2
    /\ (total = 10 -> heightScale = 10 ->
        (index = 0 -> Vector3.y p = -5) /\ (index = 9 -> Vector3.y p = 4))
    /\ (index = 0 -> p = Vec3 maxRadius (- heightScale / 2) 0).
Proof.
  intros Hj Hi.
  rewrite getPhyllotaxisPosition_finite by lra.
  eexists. split; [reflexivity |].
  cbn [Vector3.y]. rewrite Hj.
  split; [reflexivity |]. split.
  - intros -> ->. split; intros ->; lra.
  - intros ->.
    replace (0 * 137.5 * (PI / 180)) with 0 by ring.
    rewrite cos_0, sin_0. f_equal; unfold Rdiv; ring.
Qed.

Lemma getPhyllotaxisPosition_fixed_jitter_witness :
  exists p : Vector3.t,
    fst (getPhyllotaxisPosition (fun _ => 0.5) 9 10 4.5 10 0%nat) = Finite p
    /\ Vector3.y p = 9 / 10 * 10 - 10 / 2
    /\ (10 = 10 -> 10 = 10 ->
        (9 = 0 -> Vector3.y p = -5) /\ (9 = 9 -> Vector3.y p = 4))
    /\ (9 = 0 -> p = Vec3 4.5 (- 10 / 2) 0).
Proof.
  apply (getPhyllotaxisPosition_fixed_jitter (fun _ => 0.5) 0%nat 9 10 4.5 10);
    lra.
Defined.

(** C8: for [radius >= 0] and uniforms [u], [v], [w] in [[0, 1)] the point
    of [randomVectorInSphere] is the one of spherical coordinates
    [theta = 2 pi u], [phi = acos (2 v - 1)], [r = cbrt w * radius]; its
    norm is [radius * cbrt w], hence at most [radius]. *)
Theorem randomVectorInSphere_norm
    (draws : nat -> R) (n : nat) (radius : R) :
  0 <= radius ->
  0 <= draws n < 1 ->
  0 <= draws (S n) < 1 ->
  0 <= draws (S (S n)) < 1 ->
  let u := draws n in
  let v := draws (S n) in
  let w := draws (S (S n)) in
  let theta := 2 * PI * u in
  let phi := acos (2 * v - 1) in
  let r := radius * cbrt w in
  let p := fst (randomVectorInSphere draws radius n) in
  p = Vec3 (r * sin phi * cos theta) (r * sin phi * sin theta) (r * cos phi)
  /\ Vector3.length p = radius * cbrt w
  /\ Vector3.length p <= radius.
Proof.
  intros Hr Hu Hv Hw. cbv zeta. split; [| split].
  - rewrite randomVectorInSphere_unfold. cbn [fst].
    f_equal; ring.
  - apply randomVectorInSphere_length; lra.
  - apply randomVectorInSphere_inside; lra.
Qed.

Lemma randomVectorInSphere_norm_witness :
  let p := fst (randomVectorInSphere (fun _ => 0.5) 18 0%nat) in
  p = Vec3 (18 * cbrt 0.5 * sin (acos (2 * 0.5 - 1)) * cos (2 * PI * 0.5))
           (18 * cbrt 0.5 * sin (acos (2 * 0.5 - 1)) * sin (2 * PI * 0.5))
           (18 * cbrt 0.5 * cos (acos (2 * 0.5 - 1)))
  /\ Vector3.length p = 18 * cbrt 0.5
  /\ Vector3.length p <= 18.
Proof.
  apply (randomVectorInSphere_norm (fun _ => 0.5) 0%nat 18); lra.
Defined.

(** ** Who calls [getPhyllotaxisPosition] *)

Lemma arrayFrom_length {A : Type} (f : nat -> Rand A) (len start n : nat) :
  List.length (fst (arrayFrom f start len n)) = len.
Proof.
  revert start n. induction len as [| len IH]; intros start n.
  - reflexivity.
  - cbn [arrayFrom]. unfold bind.
    destruct (f start n) as [a n1].
    specialize (IH (S start) n1).
    destruct (arrayFrom f (S start) len n1) as [rest n2].
    cbn in *. now rewrite IH.
Qed.

Lemma arrayFrom_Forall {A : Type} (P : A -> Prop) (f : nat -> Rand A)
    (len start n : nat) :
  (forall i m, (start <= i < start + len)%nat -> P (fst (f i m))) ->
  Forall P (fst (arrayFrom f start len n)).
Proof.
  revert start n. induction len as [| len IH]; intros start n Hf.
  - constructor.
  - cbn [arrayFrom]. unfold bind.
    pose proof (Hf start n ltac:(lia)) as Hhead.
    destruct (f start n) as [a n1].
    assert (Htail : Forall P (fst (arrayFrom f (S start) len n1))).
    { apply IH. intros i m Hi. apply Hf. lia. }
    destruct (arrayFrom f (S start) len n1) as [rest n2].
    cbn in *. constructor; assumption.
Qed.

Lemma mapi_Forall {A B : Type} (P : B -> Prop) (f : A -> nat -> B)
    (l : list A) (i : nat) :
  (forall a k, nth_error l k = Some a -> P (f a (i + k)%nat)) ->
  Forall P (mapi f l i).
Proof.
  revert i. induction l as [| a l IH]; intros i Hf.
  - constructor.
  - cbn [mapi]. constructor.
    + specialize (Hf a 0%nat eq_refl). now rewrite Nat.add_0_r in Hf.
    + apply IH. intros b k Hk.
      specialize (Hf b (S k) Hk). now rewrite Nat.add_succ_r in Hf.
Qed.

Section Callers.

Variable draws : nat -> R.

Lemma needle_particleAt_finite (count i n : nat) :
  count <> 0%nat ->
  exists p : NeedleParticles.particle,
    NeedleParticles.particleAt draws count i n = (Finite p, (n + 7)%nat)
    /\ Finite (NeedleParticles.treePos p)
       = fst (getPhyllotaxisPosition draws (INR i) (INR count) 4.5 10 n)
    /\ NeedleParticles.scatterPos p
       = fst (randomVectorInSphere draws 18 (S n)).
Proof.
  intros Hc. unfold NeedleParticles.particleAt, bind.
  rewrite getPhyllotaxisPosition_finite by (apply not_0_INR; assumption).
  rewrite randomVectorInSphere_unfold.
  unfold random, ret. cbn [js_map fst].
  eexists. split; [| split].
  - f_equal. lia.
  - reflexivity.
  - reflexivity.
Qed.

Lemma photo_factory_finite (index total n : nat) :
  total <> 0%nat ->
  exists d : PhotoParticle.BaseParticleData,
    PhotoParticle.factory draws index total n = (Finite d, (n + 6)%nat)
    /\ js_map (fun p => Vector3.add p (Vec3 0 0.5 0))
         (fst (getPhyllotaxisPosition draws (INR index) (INR total)
                 5.5 11 n))
       = Finite (PhotoParticle.treePos d)
    /\ PhotoParticle.scatterPos d
       = fst (randomVectorInSphere draws 20 (S n))
    /\ PhotoParticle.speed d = draws (n + 4)%nat * 0.1 + 0.05
    /\ PhotoParticle.rotationOffset d = draws (n + 5)%nat * PI.
Proof.
  intros Ht. unfold PhotoParticle.factory, bind.
  rewrite getPhyllotaxisPosition_finite by (apply not_0_INR; assumption).
  rewrite randomVectorInSphere_unfold.
  unfold random, ret. cbn [js_map fst].
  eexists. split; [| split; [| split; [| split]]].
  - f_equal. lia.
  - reflexivity.
  - reflexivity.
  - cbn [PhotoParticle.speed]. do 2 f_equal. f_equal. lia.
  - cbn [PhotoParticle.rotationOffset]. f_equal. f_equal. lia.
Qed.

End Callers.

(** C2, as stated, fails: [getPhyllotaxisPosition] has no guard, and with
    [total = 0] it divides by zero and returns a non-finite vector. *)
Lemma getPhyllotaxisPosition_divides_by_zero :
  getPhyllotaxisPosition halves 0 0 4.5 10 0%nat = (NonFinite, 1%nat).
Proof. apply getPhyllotaxisPosition_zero_total. Qed.

(** C2 (amended): [getPhyllotaxisPosition] divides by [total] without a
    guard and is finite exactly when [total <> 0]; its callers only reach
    it with [index < total]: the needle generator makes [count] calls, all
    finite, and none for [count = 0]; [App] renders one photo per url,
    each with [index < total], and none for an empty collection. *)
Theorem getPhyllotaxisPosition_callers
    (draws : nat -> R) (count n : nat) (st : App.state) :
  (forall index total maxRadius heightScale : R,
      is_finite
        (fst (getPhyllotaxisPosition draws index total maxRadius
                heightScale n))
      = if Req_dec_T total 0 then false else true)
  /\ NeedleParticles.data draws 0 n = ([], n)
  /\ List.length (fst (NeedleParticles.data draws count n)) = count
  /\ Forall (fun p => is_finite p = true)
       (fst (NeedleParticles.data draws count n))
  /\ App.photos {| App.mode := App.mode st; App.imageUrls := [] |} = []
  /\ Forall
       (fun props =>
          (App.index props < App.total props)%nat
          /\ is_finite
               (fst (PhotoParticle.factory draws (App.index props)
                       (App.total props) n))
             = true)
       (App.photos st).
Proof.
  split; [| split; [| split; [| split; [| split]]]].
  - intros index total maxRadius heightScale.
    unfold getPhyllotaxisPosition, bind, random, ret, js_div.
    destruct (Req_dec_T total 0); reflexivity.
  - reflexivity.
  - apply arrayFrom_length.
  - apply arrayFrom_Forall. intros i m Hi.
    destruct (needle_particleAt_finite draws count i m ltac:(lia))
      as [p [Hp _]].
    now rewrite Hp.
  - reflexivity.
  - unfold App.photos. apply mapi_Forall. intros u k Hk.
    cbn [App.index App.total].
    assert (Hlt : (k < List.length (App.imageUrls st))%nat).
    { apply nth_error_Some. congruence. }
    split; [lia |].
    destruct (photo_factory_finite draws (0 + k)
                (List.length (App.imageUrls st)) n ltac:(lia))
      as [d [Hd _]].
    now rewrite Hd.
Qed.

(** ** Photos against needles *)

Lemma radius_add_vertical (p : Vector3.t) (dy : R) :
  Vector3.radius (Vector3.add p (Vec3 0 dy 0)) = Vector3.radius p.
Proof.
  unfold Vector3.radius, Vector3.add. cbn [Vector3.x Vector3.z].
  f_equal. ring.
Qed.

Lemma INR_ratio_bounds (index total : nat) :
  (index < total)%nat -> 0 <= INR index < INR total.
Proof.
  intros Hlt. split; [apply pos_INR | apply lt_INR; assumption].
Qed.

Lemma count_INR : INR App.count = 6000.
Proof.
  rewrite INR_IZR_INZ. apply f_equal. vm_compute. reflexivity.
Qed.

Section Envelope.

Variable draws : nat -> R.

Lemma needle_treePos_radius (count index n : nat)
    (p : NeedleParticles.particle) :
  (index < count)%nat -> 0 <= draws n ->
  fst (NeedleParticles.particleAt draws count index n) = Finite p ->
  Vector3.radius (NeedleParticles.treePos p)
  = 4.5 * (1 - INR index / INR count) * (0.8 + draws n * 0.4).
Proof.
  intros Hlt Hd Hp.
  destruct (needle_particleAt_finite draws count index n ltac:(lia))
    as [q [Hq [Htree _]]].
  rewrite Hq in Hp. cbn [fst] in Hp. injection Hp as <-.
  apply getPhyllotaxisPosition_radius with (heightScale := 10).
  - apply INR_ratio_bounds; assumption.
  - lra.
  - assumption.
  - symmetry. exact Htree.
Qed.

Lemma photo_treePos_radius (index total n : nat)
    (d : PhotoParticle.BaseParticleData) :
  (index < total)%nat -> 0 <= draws n ->
  fst (PhotoParticle.factory draws index total n) = Finite d ->
  Vector3.radius (PhotoParticle.treePos d)
  = 5.5 * (1 - INR index / INR total) * (0.8 + draws n * 0.4).
Proof.
  intros Hlt Hd Hp.
  destruct (photo_factory_finite draws index total n ltac:(lia))
    as [q [Hq [Htree _]]].
  rewrite Hq in Hp. cbn [fst] in Hp. injection Hp as <-.
  destruct (fst (getPhyllotaxisPosition draws (INR index) (INR total)
                   5.5 11 n)) as [t |] eqn:Ht;
    cbn [js_map] in Htree; [| discriminate].
  injection Htree as <-.
  rewrite radius_add_vertical.
  apply getPhyllotaxisPosition_radius with (heightScale := 11).
  - apply INR_ratio_bounds; assumption.
  - lra.
  - assumption.
  - exact Ht.
Qed.

End Envelope.

(** C10, as stated, fails in the running application: the needles are
    laid out over [count = 6000] indices and the photos over the current
    number of photos, so with two photos and equal jitter the photo at
    index 1 is closer to the axis than the needle at index 1. *)
Lemma photo_radius_below_needle_radius :
  exists (dn : NeedleParticles.particle)
         (dp : PhotoParticle.BaseParticleData),
    fst (NeedleParticles.particleAt halves App.count 1 0%nat) = Finite dn
    /\ fst (PhotoParticle.factory halves 1 2 0%nat) = Finite dp
    /\ Vector3.radius (PhotoParticle.treePos dp)
       < Vector3.radius (NeedleParticles.treePos dn).
Proof.
  assert (Hc : App.count <> 0%nat).
  { intros H. pose proof count_INR as Hcount. rewrite H in Hcount.
    cbn in Hcount. lra. }
  destruct (needle_particleAt_finite halves App.count 1 0%nat Hc)
    as [dn [Hn _]].
  destruct (photo_factory_finite halves 1 2 0 ltac:(lia)) as [dp [Hp _]].
  exists dn, dp.
  assert (Hn' : fst (NeedleParticles.particleAt halves App.count 1 0%nat)
                = Finite dn) by now rewrite Hn.
  assert (Hp' : fst (PhotoParticle.factory halves 1 2 0%nat) = Finite dp)
    by now rewrite Hp.
  split; [exact Hn' |]. split; [exact Hp' |].
  assert (Hlt : (1 < App.count)%nat).
  { apply INR_lt. rewrite count_INR. cbn. lra. }
  rewrite (needle_treePos_radius halves App.count 1 0 dn Hlt
             ltac:(unfold halves; lra) Hn').
  rewrite (photo_treePos_radius halves 1 2 0 dp ltac:(lia)
             ltac:(unfold halves; lra) Hp').
  rewrite count_INR. unfold halves. cbn [INR]. lra.
Qed.

(** C10 (amended): a photo's formation target is the phyllotaxis position
    for [maxRadius = 5.5], [heightScale = 11] moved by [(0, 0.5, 0)] and
    its scatter target lies in the sphere of radius 20; a needle uses 4.5,
    10 and the sphere of radius 18; for equal jitter, equal index and
    equal total the photo is strictly farther from the axis. *)
Theorem photo_envelope_exceeds_needle
    (draws : nat -> R) (index total n : nat) :
  (forall k : nat, 0 <= draws k < 1) ->
  (index < total)%nat ->
  exists (dn : NeedleParticles.particle)
         (dp : PhotoParticle.BaseParticleData),
    fst (NeedleParticles.particleAt draws total index n) = Finite dn
    /\ fst (PhotoParticle.factory draws index total n) = Finite dp
    /\ Finite (NeedleParticles.treePos dn)
       = fst (getPhyllotaxisPosition draws (INR index) (INR total) 4.5 10 n)
    /\ Finite (PhotoParticle.treePos dp)
       = js_map (fun p => Vector3.add p (Vec3 0 0.5 0))
           (fst (getPhyllotaxisPosition draws (INR index) (INR total)
                   5.5 11 n))
    /\ NeedleParticles.scatterPos dn
       = fst (randomVectorInSphere draws 18 (S n))
    /\ Vector3.length (NeedleParticles.scatterPos dn) <= 18
    /\ PhotoParticle.scatterPos dp
       = fst (randomVectorInSphere draws 20 (S n))
    /\ Vector3.length (PhotoParticle.scatterPos dp) <= 20
    /\ Vector3.radius (NeedleParticles.treePos dn)
       < Vector3.radius (PhotoParticle.treePos dp).
Proof.
  intros Hdraws Hlt.
  destruct (needle_particleAt_finite draws total index n ltac:(lia))
    as [dn [Hn [Hntree Hnscatter]]].
  destruct (photo_factory_finite draws index total n ltac:(lia))
    as [dp [Hp [Hptree [Hpscatter _]]]].
  exists dn, dp.
  assert (Hn' : fst (NeedleParticles.particleAt draws total index n)
                = Finite dn) by now rewrite Hn.
  assert (Hp' : fst (PhotoParticle.factory draws index total n) = Finite dp)
    by now rewrite Hp.
  repeat split; try assumption.
  - symmetry. exact Hptree.
  - rewrite Hnscatter. apply randomVectorInSphere_inside; [lra |].
    apply Hdraws.
  - rewrite Hpscatter. apply randomVectorInSphere_inside; [lra |].
    apply Hdraws.
  - destruct (Hdraws n) as [Hd0 Hd1].
    rewrite (needle_treePos_radius draws total index n dn Hlt Hd0 Hn').
    rewrite (photo_treePos_radius draws index total n dp Hlt Hd0 Hp').
    destruct (INR_ratio_bounds index total Hlt) as [Hi0 Hi1].
    assert (Hq : INR index / INR total < 1).
    { apply Rmult_lt_reg_r with (INR total); [lra |].
      unfold Rdiv. rewrite Rmult_assoc, Rinv_l by lra. lra. }
    assert (Hk : 0 < (1 - INR index / INR total) * (0.8 + draws n * 0.4)).
    { apply Rmult_lt_0_compat; lra. }
    rewrite !Rmult_assoc.
    apply Rmult_lt_compat_r; [exact Hk | lra].
Qed.

Lemma photo_envelope_exceeds_needle_witness :
  exists (dn : NeedleParticles.particle)
         (dp : PhotoParticle.BaseParticleData),
    fst (NeedleParticles.particleAt halves 2 1 0%nat) = Finite dn
    /\ fst (PhotoParticle.factory halves 1 2 0%nat) = Finite dp
    /\ Finite (NeedleParticles.treePos dn)
       = fst (getPhyllotaxisPosition halves (INR 1) (INR 2) 4.5 10 0%nat)
    /\ Finite (PhotoParticle.treePos dp)
       = js_map (fun p => Vector3.add p (Vec3 0 0.5 0))
           (fst (getPhyllotaxisPosition halves (INR 1) (INR 2) 5.5 11 0%nat))
    /\ NeedleParticles.scatterPos dn
       = fst (randomVectorInSphere halves 18 1%nat)
    /\ Vector3.length (NeedleParticles.scatterPos dn) <= 18
    /\ PhotoParticle.scatterPos dp
       = fst (randomVectorInSphere halves 20 1%nat)
    /\ Vector3.length (PhotoParticle.scatterPos dp) <= 20
    /\ Vector3.radius (NeedleParticles.treePos dn)
       < Vector3.radius (PhotoParticle.treePos dp).
Proof.
  apply (photo_envelope_exceeds_needle halves 1 2 0).
  - intros k. unfold halves. lra.
  - lia.
Defined.

(** ** The memoised data of a photo *)

Lemma sameDeps_true (d1 d2 : nat * nat) :
  PhotoParticle.sameDeps d1 d2 = true <-> d1 = d2.
Proof.
  destruct d1 as [a b], d2 as [c d]. unfold PhotoParticle.sameDeps.
  cbn [fst snd]. rewrite andb_true_iff, !Nat.eqb_eq.
  split; [intros [-> ->]; reflexivity | intros [= -> ->]; split; reflexivity].
Qed.

Lemma useMemo_hit {A : Type} (factory : Rand A) (d : nat * nat)
    (m : PhotoParticle.memo A) (n : nat) :
  PhotoParticle.deps m = d ->
  PhotoParticle.useMemo factory d (Some m) n = (m, n).
Proof.
  intros Hd. unfold PhotoParticle.useMemo.
  replace (PhotoParticle.sameDeps (PhotoParticle.deps m) d) with true.
  - reflexivity.
  - symmetry. apply sameDeps_true. assumption.
Qed.

Lemma useMemo_miss {A : Type} (factory : Rand A) (d : nat * nat)
    (m : PhotoParticle.memo A) (n : nat) :
  PhotoParticle.deps m <> d ->
  PhotoParticle.useMemo factory d (Some m) n
  = ({| PhotoParticle.deps := d; PhotoParticle.value := fst (factory n) |},
     snd (factory n)).
Proof.
  intros Hd. unfold PhotoParticle.useMemo.
  destruct (PhotoParticle.sameDeps (PhotoParticle.deps m) d) eqn:Hs.
  - apply sameDeps_true in Hs. contradiction.
  - unfold bind, ret. destruct (factory n); reflexivity.
Qed.

Lemma useMemo_first {A : Type} (factory : Rand A) (d : nat * nat) (n : nat) :
  PhotoParticle.useMemo factory d None n
  = ({| PhotoParticle.deps := d; PhotoParticle.value := fst (factory n) |},
     snd (factory n)).
Proof.
  unfold PhotoParticle.useMemo, bind, ret. destruct (factory n); reflexivity.
Qed.

(** C3, as stated, fails: the photo at index 0 is created alone, then a
    second photo is added; the render with [total = 2] runs the whole
    factory again, and the scatter position it stores is a new sample. *)
Lemma photo_scatter_resampled_on_growth :
  exists (m1 : PhotoParticle.memo (js PhotoParticle.BaseParticleData))
         (d1 d2 : PhotoParticle.BaseParticleData),
    PhotoParticle.data zerosThenHalves 0 1 None 0%nat = (m1, 6%nat)
    /\ PhotoParticle.value m1 = Finite d1
    /\ PhotoParticle.value
         (fst (PhotoParticle.data zerosThenHalves 0 2 (Some m1) 6%nat))
       = Finite d2
    /\ PhotoParticle.scatterPos d1 <> PhotoParticle.scatterPos d2.
Proof.
  destruct (photo_factory_finite zerosThenHalves 0 1 0 ltac:(lia))
    as [d1 [H1 [_ [Hs1 _]]]].
  destruct (photo_factory_finite zerosThenHalves 0 2 6 ltac:(lia))
    as [d2 [H2 [_ [Hs2 _]]]].
  eexists. exists d1, d2.
  unfold PhotoParticle.data.
  rewrite useMemo_first, H1. cbn [fst snd].
  split; [reflexivity |]. split; [reflexivity |].
  rewrite useMemo_miss by (cbn; congruence).
  rewrite H2. cbn [fst PhotoParticle.value].
  split; [reflexivity |].
  rewrite Hs1, Hs2, !randomVectorInSphere_unfold. cbn [fst].
  intros Heq. apply (f_equal Vector3.x) in Heq. cbn [Vector3.x] in Heq.
  unfold zerosThenHalves in Heq. cbn [Nat.ltb Nat.leb] in Heq.
  rewrite cbrt_0 in Heq.
  replace (2 * 0.5 - 1) with 0 in Heq by lra.
  replace (2 * PI * 0.5) with PI in Heq by lra.
  rewrite acos_0, sin_PI2, cos_PI in Heq.
  assert (Hpos : 0 < cbrt 0.5).
  { rewrite cbrt_pos by lra. unfold Rpower. apply exp_pos. }
  lra.
Qed.

(** C3 (amended): while [index] and [total] are unchanged the stored
    record is returned as it is and no random number is drawn; when
    [total] changes the whole record is computed again from six fresh
    draws: the formation target from [(index, total)] and a new jitter
    sample, and also a new scatter position, speed and phase. *)
Theorem photo_data_memo
    (draws : nat -> R) (index total total' n : nat)
    (m : PhotoParticle.memo (js PhotoParticle.BaseParticleData)) :
  PhotoParticle.deps m = (index, total) ->
  total' <> total ->
  (index < total')%nat ->
  PhotoParticle.data draws index total (Some m) n = (m, n)
  /\ exists d : PhotoParticle.BaseParticleData,
       PhotoParticle.data draws index total' (Some m) n
       = ({| PhotoParticle.deps := (index, total');
             PhotoParticle.value := Finite d |}, (n + 6)%nat)
       /\ Finite (PhotoParticle.treePos d)
          = js_map (fun p => Vector3.add p (Vec3 0 0.5 0))
              (fst (getPhyllotaxisPosition draws (INR index) (INR total')
                      5.5 11 n))
       /\ PhotoParticle.scatterPos d
          = fst (randomVectorInSphere draws 20 (S n))
       /\ PhotoParticle.speed d = draws (n + 4)%nat * 0.1 + 0.05
       /\ PhotoParticle.rotationOffset d = draws (n + 5)%nat * PI.
Proof.
  intros Hd Hne Hlt. unfold PhotoParticle.data. split.
  - apply useMemo_hit. assumption.
  - destruct (photo_factory_finite draws index total' n ltac:(lia))
      as [d [Hf [Htree [Hscatter [Hspeed Hphase]]]]].
    exists d. rewrite useMemo_miss by (rewrite Hd; congruence).
    rewrite Hf. cbn [fst snd].
    repeat split; try assumption. symmetry. exact Htree.
Qed.

Lemma photo_data_memo_witness :
  let m := fst (PhotoParticle.data halves 0 1 None 0%nat) in
  PhotoParticle.data halves 0 1 (Some m) 6%nat = (m, 6%nat)
  /\ exists d : PhotoParticle.BaseParticleData,
       PhotoParticle.data halves 0 2 (Some m) 6%nat
       = ({| PhotoParticle.deps := (0%nat, 2%nat);
             PhotoParticle.value := Finite d |}, (6 + 6)%nat)
       /\ Finite (PhotoParticle.treePos d)
          = js_map (fun p => Vector3.add p (Vec3 0 0.5 0))
              (fst (getPhyllotaxisPosition halves (INR 0) (INR 2) 5.5 11 6%nat))
       /\ PhotoParticle.scatterPos d
          = fst (randomVectorInSphere halves 20 7%nat)
       /\ PhotoParticle.speed d = halves (6 + 4)%nat * 0.1 + 0.05
       /\ PhotoParticle.rotationOffset d = halves (6 + 5)%nat * PI.
Proof.
  intros m.
  apply (photo_data_memo halves 0 1 2 6 m).
  - reflexivity.
  - lia.
  - lia.
Defined.

(** ** The upload handler *)

Lemma mapi_app {A B : Type} (f : A -> nat -> B) (l1 l2 : list A) (i : nat) :
  mapi f (l1 ++ l2) i = mapi f l1 i ++ mapi f l2 (i + List.length l1).
Proof.
  revert i. induction l1 as [| a l1 IH]; intros i; cbn [mapi app List.length].
  - now rewrite Nat.add_0_r.
  - rewrite IH. do 3 f_equal. lia.
Qed.

Lemma mapi_length {A B : Type} (f : A -> nat -> B) (l : list A) (i : nat) :
  List.length (mapi f l i) = List.length l.
Proof.
  revert i. induction l as [| a l IH]; intros i; cbn [mapi List.length].
  - reflexivity.
  - now rewrite IH.
Qed.

Lemma firstn_exact {A : Type} (k : nat) (l1 l2 : list A) :
  List.length l1 = k -> firstn k (l1 ++ l2) = l1.
Proof.
  intros <-. induction l1 as [| a l1 IH]; cbn [List.length firstn app].
  - reflexivity.
  - now rewrite IH.
Qed.

Lemma skipn_exact {A : Type} (k : nat) (l1 l2 : list A) :
  List.length l1 = k -> skipn k (l1 ++ l2) = l2.
Proof.
  intros <-. induction l1 as [| a l1 IH]; cbn [List.length skipn app].
  - reflexivity.
  - exact IH.
Qed.

(** C4: on a collection of size K, an upload of n files leaves a
    collection of size K + n whose first K urls are the old ones in
    order; the photos rendered for them keep their index, the n new
    photos take the indices K, K + 1, ..., and the mode is SCATTERED
    whatever it was. *)
Theorem handleImageUpload_appends
    (File : Type) (createObjectURL : File -> string)
    (files : list File) (st : App.state) :
  let K := List.length (App.imageUrls st) in
  let added := List.length files in
  let st' := App.handleImageUpload File createObjectURL (Some files) st in
  let photo (u : string) (i : nat) :=
    {| App.p_mode := "SCATTERED"%string;
       App.url := u;
       App.index := i;
       App.total := (K + added)%nat |} in
  List.length (App.imageUrls st') = (K + added)%nat
  /\ firstn K (App.imageUrls st') = App.imageUrls st
  /\ skipn K (App.imageUrls st') = map createObjectURL files
  /\ List.length (App.photos st') = (K + added)%nat
  /\ firstn K (App.photos st') = mapi photo (App.imageUrls st) 0
  /\ skipn K (App.photos st') = mapi photo (map createObjectURL files) K
  /\ App.mode st' = "SCATTERED"%string.
Proof.
  cbv zeta. unfold App.handleImageUpload, App.photos.
  cbn [App.imageUrls App.mode].
  rewrite mapi_app, !length_app, !length_map, Nat.add_0_l.
  repeat split.
  - apply firstn_exact. reflexivity.
  - apply skipn_exact. reflexivity.
  - rewrite !mapi_length, length_map. reflexivity.
  - apply firstn_exact. apply mapi_length.
  - apply skipn_exact. apply mapi_length.
Qed.

(** ** The mode string *)

Lemma targetT_not_tree (mode : string) :
  mode <> "TREE_SHAPE"%string -> targetT mode = 0.
Proof.
  intros Hne. unfold targetT.
  destruct (String.eqb mode "TREE_SHAPE") eqn:He; [| reflexivity].
  apply String.eqb_eq in He. contradiction.
Qed.

(** C9: a mode string that is neither of the two defined values makes
    both frame callbacks do exactly what they do for SCATTERED, with
    blend factor 0. *)
Theorem unknown_mode_is_scattered (mode : string) :
  mode <> "SCATTERED"%string ->
  mode <> "TREE_SHAPE"%string ->
  targetT mode = 0
  /\ targetT "SCATTERED" = 0
  /\ (forall data time delta st,
         NeedleParticles.useFrame mode data time delta st
         = NeedleParticles.useFrame "SCATTERED" data time delta st)
  /\ (forall data camera time delta ref,
         PhotoParticle.useFrame mode data camera time delta ref
         = PhotoParticle.useFrame "SCATTERED" data camera time delta ref).
Proof.
  intros _ Hne.
  pose proof (targetT_not_tree mode Hne) as Hm.
  assert (Hs : targetT "SCATTERED" = 0) by reflexivity.
  split; [exact Hm |]. split; [exact Hs |]. split.
  - intros data time delta st. unfold NeedleParticles.useFrame.
    now rewrite Hm, Hs.
  - intros data camera time delta ref. unfold PhotoParticle.useFrame.
    now rewrite Hm, Hs.
Qed.

Lemma unknown_mode_is_scattered_witness :
  targetT "CORRUPT" = 0
  /\ targetT "SCATTERED" = 0
  /\ (forall data time delta st,
         NeedleParticles.useFrame "CORRUPT" data time delta st
         = NeedleParticles.useFrame "SCATTERED" data time delta st)
  /\ (forall data camera time delta ref,
         PhotoParticle.useFrame "CORRUPT" data camera time delta ref
         = PhotoParticle.useFrame "SCATTERED" data camera time delta ref).
Proof.
  apply (unknown_mode_is_scattered "CORRUPT"); discriminate.
Defined.

(** ** What the needle loop damps *)

Lemma setAt_length {A : Type} (l : list A) (i : nat) (a : A) :
  List.length (setAt l i a) = List.length l.
Proof.
  revert i. induction l as [| b l IH]; intros [| i]; cbn [setAt List.length];
    try reflexivity.
  now rewrite IH.
Qed.

Lemma nth_setAt_same {A : Type} (l : list A) (i : nat) (a d : A) :
  (i < List.length l)%nat -> nth i (setAt l i a) d = a.
Proof.
  revert i. induction l as [| b l IH]; intros [| i] Hi;
    cbn [setAt List.length nth] in *; try lia; try reflexivity.
  apply IH. lia.
Qed.

Lemma nth_setAt_other {A : Type} (l : list A) (i j : nat) (a d : A) :
  i <> j -> nth j (setAt l i a) d = nth j l d.
Proof.
  revert i j. induction l as [| b l IH]; intros [| i] [| j] Hne;
    cbn [setAt nth]; try reflexivity; try lia.
  apply IH. lia.
Qed.

Section NeedleLoop.

Import NeedleParticles.

Variables (tT time delta : R).

Lemma animate_spec (p : particle) (i : nat) (d : Object3D)
    (mesh : InstancedMesh) :
  let s' := animate tT time delta p i (d, mesh) in
  position (fst s') = damp3 (position d) (blend tT p) 1.5 delta
  /\ m_position (matrix (fst s')) = position (fst s')
  /\ instanceMatrix (snd s')
     = setAt (instanceMatrix mesh) i (matrix (fst s')).
Proof. cbv zeta. unfold animate, blend, damp3. cbn. repeat split. Qed.

(** One pass of the loop: slot [i0 + k] receives the damped value of
    what the previous iteration left in [dummy]. *)
Lemma forEach_animate_chain (l : list particle) :
  forall (i0 : nat) (d : Object3D) (mesh : InstancedMesh),
    (i0 + List.length l <= List.length (instanceMatrix mesh))%nat ->
    let s' := forEach (animate tT time delta) l i0 (d, mesh) in
    List.length (instanceMatrix (snd s'))
    = List.length (instanceMatrix mesh)
    /\ (forall j, (j < i0)%nat ->
          nth j (instanceMatrix (snd s')) identity
          = nth j (instanceMatrix mesh) identity)
    /\ (forall k p, nth_error l k = Some p ->
          m_position (nth (i0 + k) (instanceMatrix (snd s')) identity)
          = damp3
              match k with
              | O => position d
              | S k' =>
                  m_position
                    (nth (i0 + k') (instanceMatrix (snd s')) identity)
              end
              (blend tT p) 1.5 delta)
    /\ position (fst s')
       = match l with
         | [] => position d
         | _ :: l' =>
             m_position
               (nth (i0 + List.length l')
                  (instanceMatrix (snd s')) identity)
         end.
Proof.
  induction l as [| a l IH]; intros i0 d mesh Hlen; cbv zeta.
  - cbn [forEach fst snd]. repeat split.
    intros k p Hk. destruct k; discriminate.
  - cbn [forEach List.length] in *.
    destruct (animate_spec a i0 d mesh) as [Hpos [Hmat Hset]].
    destruct (animate tT time delta a i0 (d, mesh)) as [d1 m1] eqn:Ha.
    cbn [fst snd] in Hpos, Hmat, Hset.
    assert (Hlen1 : List.length (instanceMatrix m1)
                    = List.length (instanceMatrix mesh)).
    { rewrite Hset. apply setAt_length. }
    destruct (IH (S i0) d1 m1 ltac:(lia)) as [Hl [Hlow [Hchain Hlast]]].
    set (s' := forEach (animate tT time delta) l (S i0) (d1, m1)) in *.
    assert (Hslot : m_position (nth i0 (instanceMatrix (snd s')) identity)
                    = position d1).
    { rewrite Hlow by lia. rewrite Hset, nth_setAt_same by lia.
      exact Hmat. }
    split; [lia |]. split; [| split].
    + intros j Hj. rewrite Hlow by lia.
      rewrite Hset. apply nth_setAt_other. lia.
    + intros [| k] p Hk.
      * cbn [nth_error] in Hk. injection Hk as <-.
        rewrite Nat.add_0_r, Hslot. exact Hpos.
      * cbn [nth_error] in Hk. specialize (Hchain k p Hk).
        replace (i0 + S k)%nat with (S i0 + k)%nat by lia.
        rewrite Hchain. f_equal.
        destruct k as [| k'].
        -- rewrite Nat.add_0_r. symmetry. exact Hslot.
        -- do 2 f_equal. lia.
    + rewrite Hlast. destruct l as [| b l'].
      * cbn [List.length]. rewrite Nat.add_0_r. symmetry. exact Hslot.
      * cbn [List.length]. do 2 f_equal. lia.
Qed.

End NeedleLoop.

(** In one frame of the needle loop the damp step of particle 0 starts
    from the position [dummy] kept from the last particle of the previous
    frame, and the damp step of particle [k + 1] starts from the position
    just written for particle [k]. *)
Lemma needle_useFrame_chain (mode : string)
    (data : list NeedleParticles.particle) (time delta : R)
    (st : NeedleParticles.state) (mesh : NeedleParticles.InstancedMesh) :
  NeedleParticles.meshRef st = Some mesh ->
  (List.length data
   <= List.length (NeedleParticles.instanceMatrix mesh))%nat ->
  let st' := NeedleParticles.useFrame mode data time delta st in
  (exists mesh',
      NeedleParticles.meshRef st' = Some mesh'
      /\ List.length (NeedleParticles.instanceMatrix mesh')
         = List.length (NeedleParticles.instanceMatrix mesh)
      /\ NeedleParticles.needsUpdate mesh' = true)
  /\ (forall k p, nth_error data k = Some p ->
        NeedleParticles.shown k st'
        = damp3
            match k with
            | O => NeedleParticles.position (NeedleParticles.dummy st)
            | S k' => NeedleParticles.shown k' st'
            end
            (NeedleParticles.target mode p) 1.5 delta)
  /\ NeedleParticles.position (NeedleParticles.dummy st')
     = match data with
       | [] => NeedleParticles.position (NeedleParticles.dummy st)
       | _ :: l' => NeedleParticles.shown (List.length l') st'
       end.
Proof.
  intros Hmesh Hlen. cbv zeta.
  unfold NeedleParticles.useFrame, NeedleParticles.shown. rewrite Hmesh.
  destruct (forEach_animate_chain (targetT mode) time delta data 0
              (NeedleParticles.dummy st) mesh ltac:(lia))
    as [Hl [_ [Hchain Hlast]]].
  destruct (forEach (NeedleParticles.animate (targetT mode) time delta)
              data 0 (NeedleParticles.dummy st, mesh)) as [d' m'].
  cbn [fst snd NeedleParticles.meshRef NeedleParticles.dummy
       NeedleParticles.instanceMatrix] in *.
  split; [| split].
  - eexists. split; [reflexivity |]. split; [exact Hl | reflexivity].
  - intros k p Hk. specialize (Hchain k p Hk).
    rewrite Nat.add_0_l in Hchain. rewrite Hchain.
    destruct k; reflexivity.
  - rewrite Hlast. destruct data; reflexivity.
Qed.

(** The photo callback damps the mesh's own position. *)
Lemma photo_useFrame_own_position (mode : string)
    (data : PhotoParticle.BaseParticleData) (camera : Vector3.t)
    (time delta : R) (current : PhotoParticle.Mesh) :
  exists current',
    PhotoParticle.useFrame mode data camera time delta (Some current)
    = Some current'
    /\ PhotoParticle.position current'
       = damp3 (PhotoParticle.position current)
           (PhotoParticle.target mode data) 1.2 delta.
Proof. eexists. split; reflexivity. Qed.

(** C1 (the code departs from it): two needles rest in the scattered
    layout.  After frame 1 needle 0 is shown on its own target, the
    origin.  In frame 2 its damp step does not start from that position
    but from the one needle 1 left in the shared [dummy], so needle 0 is
    pulled off its target. *)
Theorem needle_damp_starts_from_shared_dummy :
  NeedleParticles.target "SCATTERED" TwoNeedles.p0 = origin
  /\ NeedleParticles.shown 0 TwoNeedles.frame1 = origin
  /\ NeedleParticles.shown 0 TwoNeedles.frame2
     = damp3 (NeedleParticles.shown 1 TwoNeedles.frame1)
         (NeedleParticles.target "SCATTERED" TwoNeedles.p0) 1.5 1
  /\ NeedleParticles.shown 0 TwoNeedles.frame2
     <> damp3 (NeedleParticles.shown 0 TwoNeedles.frame1)
          (NeedleParticles.target "SCATTERED" TwoNeedles.p0) 1.5 1.
Proof.
  assert (Ht0 : NeedleParticles.target "SCATTERED" TwoNeedles.p0 = origin).
  { unfold NeedleParticles.target, NeedleParticles.blend, TwoNeedles.p0,
      origin, lerp.
    cbn [NeedleParticles.scatterPos NeedleParticles.treePos
         Vector3.x Vector3.y Vector3.z].
    replace (targetT "SCATTERED") with 0 by reflexivity.
    f_equal; ring. }
  assert (Ht1 : Vector3.x (NeedleParticles.target "SCATTERED" TwoNeedles.p1)
                = 1).
  { unfold NeedleParticles.target, NeedleParticles.blend, TwoNeedles.p1,
      lerp.
    cbn [NeedleParticles.scatterPos NeedleParticles.treePos Vector3.x].
    replace (targetT "SCATTERED") with 0 by reflexivity. ring. }
  assert (Hlen0 : (List.length TwoNeedles.data
                   <= List.length
                        (NeedleParticles.instanceMatrix
                           (NeedleParticles.newInstancedMesh 2)))%nat).
  { cbn [TwoNeedles.data List.length NeedleParticles.newInstancedMesh
         NeedleParticles.instanceMatrix repeat].
    lia. }
  destruct (needle_useFrame_chain "SCATTERED" TwoNeedles.data 1 1
              TwoNeedles.start (NeedleParticles.newInstancedMesh 2)
              eq_refl Hlen0)
    as [[mesh1 [Hmesh1 [Hlen1 _]]] [Hchain1 Hlast1]].
  fold TwoNeedles.frame1 in Hmesh1, Hchain1, Hlast1.
  pose proof (Hchain1 0%nat TwoNeedles.p0 eq_refl) as H10.
  pose proof (Hchain1 1%nat TwoNeedles.p1 eq_refl) as H11.
  cbn [TwoNeedles.data List.length] in Hlast1.
  rewrite <- Hlen1 in Hlen0.
  destruct (needle_useFrame_chain "SCATTERED" TwoNeedles.data 2 1
              TwoNeedles.frame1 mesh1 Hmesh1 Hlen0)
    as [_ [Hchain2 _]].
  fold TwoNeedles.frame2 in Hchain2.
  pose proof (Hchain2 0%nat TwoNeedles.p0 eq_refl) as H20.
  assert (Hown : NeedleParticles.shown 0 TwoNeedles.frame1 = origin).
  { rewrite H10, Ht0. unfold damp3, origin.
    cbn [TwoNeedles.start NeedleParticles.dummy NeedleParticles.position
         NeedleParticles.newObject3D Vector3.x Vector3.y Vector3.z origin].
    rewrite damp_at_target. reflexivity. }
  split; [exact Ht0 |]. split; [exact Hown |]. split.
  - rewrite H20, Hlast1. reflexivity.
  - rewrite H20, Hlast1, H11, Hown, Ht0.
    intros Heq. apply (f_equal Vector3.x) in Heq.
    unfold damp3, origin in Heq. cbn [Vector3.x] in Heq.
    rewrite Ht1, damp_at_target in Heq. unfold damp in Heq.
    destruct (damp_factor_lt_1 1.5 1 ltac:(lra) ltac:(lra)) as [Hpos Hlt].
    set (e := exp (- (1.5) * 1)) in *.
    assert (0 < (1 - e) * e) by (apply Rmult_lt_0_compat; lra).
    lra.
Qed.

(** * Further properties of the code *)

(** ** The formation cone *)

Lemma quotient_unit (index total : R) :
  0 <= index < total -> 0 <= index / total < 1.
Proof.
  intros [H0 Hlt]. split.
  - apply Rmult_le_pos; [assumption |]. left. apply Rinv_0_lt_compat. lra.
  - apply Rmult_lt_reg_r with total; [lra |].
    unfold Rdiv. rewrite Rmult_assoc, Rinv_l by lra. lra.
Qed.

Lemma quotient_increasing (i j total : R) :
  0 < total -> i < j -> i / total < j / total.
Proof.
  intros Ht Hij. unfold Rdiv. apply Rmult_lt_compat_r; [| assumption].
  apply Rinv_0_lt_compat. assumption.
Qed.

Lemma formation_height_range_core
    (draws : nat -> R) (n : nat) (index total maxRadius heightScale : R) :
  0 <= index < total ->
  0 < heightScale ->
  exists p : Vector3.t,
    fst (getPhyllotaxisPosition draws index total maxRadius heightScale n)
    = Finite p
    /\ - heightScale / 2 <= Vector3.y p < heightScale / 2.
Proof.
  intros Hi HH. rewrite getPhyllotaxisPosition_finite by lra.
  eexists. split; [reflexivity |]. cbn [Vector3.y].
  destruct (quotient_unit index total Hi) as [Hq0 Hq1].
  assert (0 <= index / total * heightScale) by (apply Rmult_le_pos; lra).
  assert (index / total * heightScale < 1 * heightScale)
    by (apply Rmult_lt_compat_r; lra).
  lra.
Qed.

(** X1: the heights of a formation are spread from [-heightScale / 2]
    (index 0) up to, but excluding, [heightScale / 2]. *)
Theorem formation_height_range
    (draws : nat -> R) (n : nat) (index total maxRadius heightScale : R) :
  0 <= index < total ->
  0 < heightScale ->
  exists p : Vector3.t,
    fst (getPhyllotaxisPosition draws index total maxRadius heightScale n)
    = Finite p
    /\ - heightScale / 2 <= Vector3.y p < heightScale / 2.
Proof. apply formation_height_range_core. Qed.

Lemma formation_height_range_witness :
  exists p : Vector3.t,
    fst (getPhyllotaxisPosition halves 3 10 4.5 10 0%nat) = Finite p
    /\ - 10 / 2 <= Vector3.y p < 10 / 2.
Proof.
  apply (formation_height_range halves 0%nat 3 10 4.5 10); lra.
Defined.

Lemma formation_inside_cone_core
    (draws : nat -> R) (n : nat) (index total maxRadius heightScale : R) :
  0 <= index < total ->
  0 <= maxRadius ->
  0 < heightScale ->
  0 <= draws n < 1 ->
  exists p : Vector3.t,
    fst (getPhyllotaxisPosition draws index total maxRadius heightScale n)
    = Finite p
    /\ 0.8 * (maxRadius * (1 / 2 - Vector3.y p / heightScale))
       <= Vector3.radius p
       <= 1.2 * (maxRadius * (1 / 2 - Vector3.y p / heightScale))
    /\ Vector3.radius p <= 1.2 * maxRadius.
Proof.
  intros Hi HR HH Hd.
  destruct (formation_height_range_core draws n index total maxRadius
              heightScale Hi HH) as [p [Hp _]].
  exists p. split; [exact Hp |].
  rewrite (getPhyllotaxisPosition_radius draws index total maxRadius
             heightScale n p Hi HR ltac:(lra) Hp).
  rewrite getPhyllotaxisPosition_finite in Hp by lra.
  cbn [fst] in Hp. injection Hp as <-. cbn [Vector3.y].
  replace (1 / 2 - (index / total * heightScale - heightScale / 2)
                   / heightScale)
    with (1 - index / total) by (field; lra).
  destruct (quotient_unit index total Hi) as [Hq0 Hq1].
  set (q := index / total) in *.
  assert (Hb : 0 <= maxRadius * (1 - q)) by (apply Rmult_le_pos; lra).
  assert (Hb1 : maxRadius * (1 - q) <= maxRadius * 1)
    by (apply Rmult_le_compat_l; lra).
  set (b := maxRadius * (1 - q)) in *.
  assert (0 <= b * (draws n * 0.4)).
  { apply Rmult_le_pos; [assumption | lra]. }
  assert (b * (draws n * 0.4) <= b * 0.4).
  { apply Rmult_le_compat_l; [assumption | lra]. }
  repeat split; lra.
Qed.

(** X2: a formation position lies in the shell of a cone: at height [y]
    its distance from the axis is between 0.8 and 1.2 times
    [maxRadius * (1/2 - y / heightScale)], which is at most
    [1.2 * maxRadius] and shrinks to 0 at the top. *)
Theorem formation_inside_cone
    (draws : nat -> R) (n : nat) (index total maxRadius heightScale : R) :
  0 <= index < total ->
  0 <= maxRadius ->
  0 < heightScale ->
  0 <= draws n < 1 ->
  exists p : Vector3.t,
    fst (getPhyllotaxisPosition draws index total maxRadius heightScale n)
    = Finite p
    /\ 0.8 * (maxRadius * (1 / 2 - Vector3.y p / heightScale))
       <= Vector3.radius p
       <= 1.2 * (maxRadius * (1 / 2 - Vector3.y p / heightScale))
    /\ Vector3.radius p <= 1.2 * maxRadius.
Proof. apply formation_inside_cone_core. Qed.

Lemma formation_inside_cone_witness :
  exists p : Vector3.t,
    fst (getPhyllotaxisPosition halves 3 10 4.5 10 0%nat) = Finite p
    /\ 0.8 * (4.5 * (1 / 2 - Vector3.y p / 10))
       <= Vector3.radius p
       <= 1.2 * (4.5 * (1 / 2 - Vector3.y p / 10))
    /\ Vector3.radius p <= 1.2 * 4.5.
Proof.
  apply (formation_inside_cone halves 0%nat 3 10 4.5 10);
    unfold halves; lra.
Defined.

(** X3: with the same jitter a larger index sits higher and closer to
    the axis. *)
Theorem formation_tapers
    (draws : nat -> R) (n : nat) (i j total maxRadius heightScale : R) :
  0 <= i -> i < j -> j < total ->
  0 < maxRadius ->
  0 < heightScale ->
  0 <= draws n ->
  exists p q : Vector3.t,
    fst (getPhyllotaxisPosition draws i total maxRadius heightScale n)
    = Finite p
    /\ fst (getPhyllotaxisPosition draws j total maxRadius heightScale n)
       = Finite q
    /\ Vector3.y p < Vector3.y q
    /\ Vector3.radius q < Vector3.radius p.
Proof.
  intros Hi Hij Hj HR HH Hd.
  destruct (formation_height_range_core draws n i total maxRadius
              heightScale
              ltac:(lra) HH) as [p [Hp _]].
  destruct (formation_height_range_core draws n j total maxRadius
              heightScale
              ltac:(lra) HH) as [q [Hq _]].
  exists p, q. split; [exact Hp |]. split; [exact Hq |].
  rewrite (getPhyllotaxisPosition_radius draws i total maxRadius
             heightScale n p ltac:(lra) ltac:(lra) Hd Hp).
  rewrite (getPhyllotaxisPosition_radius draws j total maxRadius
             heightScale n q ltac:(lra) ltac:(lra) Hd Hq).
  rewrite getPhyllotaxisPosition_finite in Hp, Hq by lra.
  cbn [fst] in Hp, Hq. injection Hp as <-. injection Hq as <-.
  cbn [Vector3.y].
  pose proof (quotient_increasing i j total ltac:(lra) Hij) as Hlt.
  split.
  - assert (i / total * heightScale < j / total * heightScale)
      by (apply Rmult_lt_compat_r; lra).
    lra.
  - apply Rmult_lt_compat_r; [lra |].
    apply Rmult_lt_compat_l; lra.
Qed.

Lemma formation_tapers_witness :
  exists p q : Vector3.t,
    fst (getPhyllotaxisPosition halves 3 10 4.5 10 0%nat) = Finite p
    /\ fst (getPhyllotaxisPosition halves 7 10 4.5 10 0%nat) = Finite q
    /\ Vector3.y p < Vector3.y q
    /\ Vector3.radius q < Vector3.radius p.
Proof.
  apply (formation_tapers halves 0%nat 3 7 10 4.5 10); unfold halves; lra.
Defined.

(** X4: the spiral angle advances by 137.5 degrees per index, so it
    returns to the same direction after 144 indices (55 full turns): the
    positions at [index] and [index + 144] lie on one ray from the axis,
    whatever their jitter. *)
Theorem formation_direction_repeats
    (draws : nat -> R) (n m : nat) (index total maxRadius heightScale : R) :
  0 <= index -> index + 144 < total ->
  0 <= maxRadius ->
  0 <= draws n -> 0 <= draws m ->
  exists p q : Vector3.t,
    fst (getPhyllotaxisPosition draws index total maxRadius heightScale n)
    = Finite p
    /\ fst (getPhyllotaxisPosition draws (index + 144) total maxRadius
              heightScale m)
       = Finite q
    /\ Vector3.x q * Vector3.radius p = Vector3.x p * Vector3.radius q
    /\ Vector3.z q * Vector3.radius p = Vector3.z p * Vector3.radius q.
Proof.
  intros Hi Hj HR Hdn Hdm.
  assert (Hp : exists p,
             fst (getPhyllotaxisPosition draws index total maxRadius
                    heightScale n) = Finite p)
    by (rewrite getPhyllotaxisPosition_finite by lra; eexists; reflexivity).
  assert (Hq : exists q,
             fst (getPhyllotaxisPosition draws (index + 144) total maxRadius
                    heightScale m) = Finite q)
    by (rewrite getPhyllotaxisPosition_finite by lra; eexists; reflexivity).
  destruct Hp as [p Hp], Hq as [q Hq]. exists p, q.
  split; [exact Hp |]. split; [exact Hq |].
  rewrite (getPhyllotaxisPosition_radius draws index total maxRadius
             heightScale n p ltac:(lra) HR Hdn Hp).
  rewrite (getPhyllotaxisPosition_radius draws (index + 144) total maxRadius
             heightScale m q ltac:(lra) HR Hdm Hq).
  rewrite getPhyllotaxisPosition_finite in Hp, Hq by lra.
  cbn [fst] in Hp, Hq. injection Hp as <-. injection Hq as <-.
  cbn [Vector3.x Vector3.z].
  assert (Hturns : (index + 144) * 137.5 * (PI / 180)
                   = index * 137.5 * (PI / 180) + 2 * INR 55 * PI).
  { replace (INR 55) with 55
      by (rewrite INR_IZR_INZ; apply f_equal; vm_compute; reflexivity).
    lra. }
  rewrite Hturns, cos_period, sin_period.
  split; ring.
Qed.

Lemma formation_direction_repeats_witness :
  exists p q : Vector3.t,
    fst (getPhyllotaxisPosition halves 1 6000 4.5 10 0%nat) = Finite p
    /\ fst (getPhyllotaxisPosition halves (1 + 144) 6000 4.5 10 7%nat)
       = Finite q
    /\ Vector3.x q * Vector3.radius p = Vector3.x p * Vector3.radius q
    /\ Vector3.z q * Vector3.radius p = Vector3.z p * Vector3.radius q.
Proof.
  apply (formation_direction_repeats halves 0%nat 7%nat 1 6000 4.5 10);
    unfold halves; lra.
Defined.

(** ** The scatter sphere *)

(** X5: the height of a scatter point is linear in the second uniform,
    [z = r * (2 v - 1)] with [r = cbrt w * radius], and the first uniform
    only turns the point around the z axis: [x^2 + y^2] does not depend
    on it. *)
Theorem randomVectorInSphere_height
    (draws : nat -> R) (n : nat) (radius : R) :
  0 <= draws (S n) < 1 ->
  let v := draws (S n) in
  let r := cbrt (draws (S (S n))) * radius in
  let p := fst (randomVectorInSphere draws radius n) in
  Vector3.z p = r * (2 * v - 1)
  /\ Vector3.x p * Vector3.x p + Vector3.y p * Vector3.y p
     = r * r * (1 - (2 * v - 1) * (2 * v - 1)).
Proof.
  intros Hv. cbv zeta. rewrite randomVectorInSphere_unfold.
  cbn [fst Vector3.x Vector3.y Vector3.z].
  assert (Hc : cos (acos (2 * draws (S n) - 1)) = 2 * draws (S n) - 1)
    by (apply cos_acos; lra).
  split.
  - rewrite Hc. reflexivity.
  - pose proof (sin2_cos2 (acos (2 * draws (S n) - 1))) as Hphi.
    pose proof (sin2_cos2 (2 * PI * draws n)) as Htheta.
    unfold Rsqr in Hphi, Htheta. rewrite Hc in Hphi.
    set (sp := sin (acos (2 * draws (S n) - 1))) in *.
    set (c := 2 * draws (S n) - 1) in *.
    set (st := sin (2 * PI * draws n)) in *.
    set (ct := cos (2 * PI * draws n)) in *.
    set (r := cbrt (draws (S (S n))) * radius).
    transitivity (r * r * (sp * sp) * (st * st + ct * ct)); [ring |].
    rewrite Htheta. replace (sp * sp) with (1 - c * c) by lra. ring.
Qed.

Lemma randomVectorInSphere_height_witness :
  let p := fst (randomVectorInSphere halves 20 0%nat) in
  Vector3.z p = cbrt (halves 2%nat) * 20 * (2 * halves 1%nat - 1)
  /\ Vector3.x p * Vector3.x p + Vector3.y p * Vector3.y p
     = cbrt (halves 2%nat) * 20 * (cbrt (halves 2%nat) * 20)
       * (1 - (2 * halves 1%nat - 1) * (2 * halves 1%nat - 1)).
Proof.
  apply (randomVectorInSphere_height halves 0%nat 20). unfold halves. lra.
Defined.

(** X6: the cube of the distance of a scatter point from the centre is
    [radius^3] times the third uniform, which is what spreads the points
    evenly over the volume; for a positive radius every point is strictly
    inside the sphere. *)
Theorem randomVectorInSphere_volume
    (draws : nat -> R) (n : nat) (radius : R) :
  0 < radius ->
  0 <= draws (S (S n)) < 1 ->
  let d := Vector3.length (fst (randomVectorInSphere draws radius n)) in
  d * d * d = radius * radius * radius * draws (S (S n))
  /\ d < radius.
Proof.
  intros Hr Hw. cbv zeta.
  rewrite randomVectorInSphere_length by lra.
  pose proof (cbrt_cube (draws (S (S n)))) as Hcube.
  pose proof (cbrt_lt_1 _ Hw) as Hlt.
  split.
  - rewrite <- Hcube at 4. ring.
  - rewrite <- (Rmult_1_r radius) at 2.
    apply Rmult_lt_compat_l; assumption.
Qed.

Lemma randomVectorInSphere_volume_witness :
  let d := Vector3.length (fst (randomVectorInSphere halves 18 0%nat)) in
  d * d * d = 18 * 18 * 18 * halves 2%nat /\ d < 18.
Proof.
  apply (randomVectorInSphere_volume halves 0%nat 18); unfold halves; lra.
Defined.

(** ** The generated records *)

Lemma arrayFrom_map {A : Type} (f : nat -> Rand A) (c : nat) :
  (forall i m, snd (f i m) = (m + c)%nat) ->
  forall len start n,
    arrayFrom f start len n
    = (map (fun k => fst (f (start + k)%nat (n + c * k)%nat)) (seq 0 len),
       (n + c * len)%nat).
Proof.
  intros Hc. induction len as [| len IH]; intros start n.
  - cbn [arrayFrom seq map]. unfold ret. f_equal. lia.
  - cbn [arrayFrom]. unfold bind.
    pose proof (Hc start n) as Hs.
    destruct (f start n) as [a n1] eqn:Ha. cbn [snd] in Hs. subst n1.
    rewrite IH. unfold ret. cbn [seq map]. f_equal.
    + f_equal.
      * rewrite Nat.add_0_r, Nat.mul_0_r, Nat.add_0_r, Ha. reflexivity.
      * rewrite <- seq_shift, map_map. apply map_ext. intros k.
        do 2 f_equal; lia.
    + lia.
Qed.

Section Records.

Variable draws : nat -> R.

Lemma needle_particleAt_draws (count i n : nat) :
  snd (NeedleParticles.particleAt draws count i n) = (n + 7)%nat.
Proof.
  unfold NeedleParticles.particleAt, getPhyllotaxisPosition,
    randomVectorInSphere, bind, random, ret.
  cbn [snd]. lia.
Qed.

Lemma needle_particleAt_fields (count i n : nat) :
  count <> 0%nat ->
  exists p : NeedleParticles.particle,
    fst (NeedleParticles.particleAt draws count i n) = Finite p
    /\ Finite (NeedleParticles.treePos p)
       = fst (getPhyllotaxisPosition draws (INR i) (INR count) 4.5 10 n)
    /\ NeedleParticles.scatterPos p
       = fst (randomVectorInSphere draws 18 (S n))
    /\ NeedleParticles.speed p = draws (n + 4)%nat * 0.2 + 0.1
    /\ NeedleParticles.rotationOffset p = draws (n + 5)%nat * PI
    /\ NeedleParticles.scale p = draws (n + 6)%nat * 0.6 + 0.4.
Proof.
  intros Hc. unfold NeedleParticles.particleAt, bind.
  rewrite getPhyllotaxisPosition_finite by (apply not_0_INR; assumption).
  rewrite randomVectorInSphere_unfold.
  unfold random, ret. cbn [js_map fst].
  replace (n + 4)%nat with (S (S (S (S n)))) by lia.
  replace (n + 5)%nat with (S (S (S (S (S n))))) by lia.
  replace (n + 6)%nat with (S (S (S (S (S (S n)))))) by lia.
  eexists. repeat split.
Qed.

End Records.

Lemma needle_data_draws_core (draws : nat -> R) (count n : nat) :
  NeedleParticles.data draws count n
  = (map (fun i =>
            fst (NeedleParticles.particleAt draws count i (n + 7 * i)%nat))
       (seq 0 count),
     (n + 7 * count)%nat).
Proof.
  unfold NeedleParticles.data.
  apply (arrayFrom_map (NeedleParticles.particleAt draws count) 7).
  intros i m. apply needle_particleAt_draws.
Qed.

(** X7: the needle generator builds [count] records in index order and
    calls [Math.random] seven times for each: the record of index [i] is
    made from the draws [7 i] to [7 i + 6] after the starting point. *)
Theorem needle_data_draws (draws : nat -> R) (count n : nat) :
  NeedleParticles.data draws count n
  = (map (fun i =>
            fst (NeedleParticles.particleAt draws count i (n + 7 * i)%nat))
       (seq 0 count),
     (n + 7 * count)%nat).
Proof. apply needle_data_draws_core. Qed.

(** X8: every generated needle is a finite record with speed in
    [[0.1, 0.3)], phase in [[0, pi)], scale in [[0.4, 1)], a scatter
    position within 18 of the centre and a formation position with
    height in [[-5, 5)] and at most 5.4 from the axis. *)
Theorem needle_data_ranges (draws : nat -> R) (count n : nat) :
  (forall k : nat, 0 <= draws k < 1) ->
  Forall
    (fun r =>
       exists p : NeedleParticles.particle,
         r = Finite p
         /\ 0.1 <= NeedleParticles.speed p < 0.3
         /\ 0 <= NeedleParticles.rotationOffset p < PI
         /\ 0.4 <= NeedleParticles.scale p < 1
         /\ Vector3.length (NeedleParticles.scatterPos p) <= 18
         /\ -5 <= Vector3.y (NeedleParticles.treePos p) < 5
         /\ Vector3.radius (NeedleParticles.treePos p) <= 5.4)
    (fst (NeedleParticles.data draws count n)).
Proof.
  intros Hd. rewrite needle_data_draws_core. cbn [fst].
  apply Forall_map, Forall_forall. intros i Hi. apply in_seq in Hi.
  destruct (needle_particleAt_fields draws count i (n + 7 * i)
              ltac:(lia))
    as [p [Hp [Htree [Hscatter [Hspeed [Hphase Hscale]]]]]].
  exists p. split; [exact Hp |].
  pose proof PI_RGT_0 as Hpi.
  assert (Hidx : 0 <= INR i < INR count)
    by (apply INR_ratio_bounds; lia).
  destruct (formation_inside_cone_core draws (n + 7 * i) (INR i) (INR count)
              4.5 10 Hidx ltac:(lra) ltac:(lra) (Hd _))
    as [t [Ht [_ Hrad]]].
  destruct (formation_height_range_core draws (n + 7 * i) (INR i) (INR count)
              4.5 10 Hidx ltac:(lra))
    as [t' [Ht' Hy]].
  rewrite Ht in Htree, Ht'. injection Htree as Htree.
  injection Ht' as <-. rewrite Htree.
  rewrite Hspeed, Hphase, Hscale, Hscatter.
  destruct (Hd (n + 7 * i + 4)%nat), (Hd (n + 7 * i + 5)%nat),
    (Hd (n + 7 * i + 6)%nat).
  repeat split; try lra.
  - apply Rmult_le_pos; lra.
  - rewrite <- (Rmult_1_l PI) at 2. apply Rmult_lt_compat_r; lra.
  - apply randomVectorInSphere_inside; [lra | apply Hd].
Qed.

Lemma needle_data_ranges_witness :
  Forall
    (fun r =>
       exists p : NeedleParticles.particle,
         r = Finite p
         /\ 0.1 <= NeedleParticles.speed p < 0.3
         /\ 0 <= NeedleParticles.rotationOffset p < PI
         /\ 0.4 <= NeedleParticles.scale p < 1
         /\ Vector3.length (NeedleParticles.scatterPos p) <= 18
         /\ -5 <= Vector3.y (NeedleParticles.treePos p) < 5
         /\ Vector3.radius (NeedleParticles.treePos p) <= 5.4)
    (fst (NeedleParticles.data halves 3 0%nat)).
Proof.
  apply (needle_data_ranges halves 3 0%nat).
  intros k. unfold halves. lra.
Defined.

(** X9: the record of a photo rendered with [index < total] is finite,
    with speed in [[0.05, 0.15)], phase in [[0, pi)], a scatter position
    within 20 of the centre and a formation target with height in
    [[-5, 6)] and at most 6.6 from the axis. *)
Theorem photo_factory_ranges (draws : nat -> R) (index total n : nat) :
  (forall k : nat, 0 <= draws k < 1) ->
  (index < total)%nat ->
  exists d : PhotoParticle.BaseParticleData,
    fst (PhotoParticle.factory draws index total n) = Finite d
    /\ 0.05 <= PhotoParticle.speed d < 0.15
    /\ 0 <= PhotoParticle.rotationOffset d < PI
    /\ Vector3.length (PhotoParticle.scatterPos d) <= 20
    /\ -5 <= Vector3.y (PhotoParticle.treePos d) < 6
    /\ Vector3.radius (PhotoParticle.treePos d) <= 6.6.
Proof.
  intros Hd Hlt.
  destruct (photo_factory_finite draws index total n ltac:(lia))
    as [d [Hf [Htree [Hscatter [Hspeed Hphase]]]]].
  exists d. split; [now rewrite Hf |].
  pose proof PI_RGT_0 as Hpi.
  assert (Hidx : 0 <= INR index < INR total)
    by (apply INR_ratio_bounds; lia).
  destruct (formation_inside_cone_core draws n (INR index) (INR total)
              5.5 11 Hidx ltac:(lra) ltac:(lra) (Hd _))
    as [t [Ht [_ Hrad]]].
  destruct (formation_height_range_core draws n (INR index) (INR total)
              5.5 11 Hidx ltac:(lra))
    as [t' [Ht' Hy]].
  rewrite Ht in Htree, Ht'. cbn [js_map] in Htree.
  injection Htree as Htree. injection Ht' as <-.
  rewrite <- Htree, radius_add_vertical.
  rewrite Hspeed, Hphase, Hscatter.
  unfold Vector3.add. cbn [Vector3.y].
  destruct (Hd (n + 4)%nat), (Hd (n + 5)%nat).
  repeat split; try lra.
  - apply Rmult_le_pos; lra.
  - rewrite <- (Rmult_1_l PI) at 2. apply Rmult_lt_compat_r; lra.
  - apply randomVectorInSphere_inside; [lra | apply Hd].
Qed.

Lemma photo_factory_ranges_witness :
  exists d : PhotoParticle.BaseParticleData,
    fst (PhotoParticle.factory halves 1 2 0%nat) = Finite d
    /\ 0.05 <= PhotoParticle.speed d < 0.15
    /\ 0 <= PhotoParticle.rotationOffset d < PI
    /\ Vector3.length (PhotoParticle.scatterPos d) <= 20
    /\ -5 <= Vector3.y (PhotoParticle.treePos d) < 6
    /\ Vector3.radius (PhotoParticle.treePos d) <= 6.6.
Proof.
  apply (photo_factory_ranges halves 1 2 0%nat).
  - intros k. unfold halves. lra.
  - lia.
Defined.

(** ** One frame of the needles *)

Lemma setAt_skipn {A : Type} (l : list A) (i k : nat) (a : A) :
  (i < k)%nat -> skipn k (setAt l i a) = skipn k l.
Proof.
  revert i k. induction l as [| b l IH]; intros [| i] [| k] Hik;
    cbn [setAt skipn]; try reflexivity; try lia.
  apply IH. lia.
Qed.

Lemma damp_zero_delta (current target rate : R) :
  damp current target rate 0 = current.
Proof.
  unfold damp. rewrite Rmult_0_r, exp_0. ring.
Qed.

Lemma damp3_zero_delta (current target : Vector3.t) (rate : R) :
  damp3 current target rate 0 = current.
Proof.
  unfold damp3. rewrite !damp_zero_delta. destruct current; reflexivity.
Qed.

Section NeedleFrame.

Import NeedleParticles.

Variables (tT time delta : R).

Lemma forEach_animate_skipn (l : list particle) :
  forall (i0 : nat) (d : Object3D) (mesh : InstancedMesh),
    skipn (i0 + List.length l)
      (instanceMatrix (snd (forEach (animate tT time delta) l i0 (d, mesh))))
    = skipn (i0 + List.length l) (instanceMatrix mesh).
Proof.
  induction l as [| a l IH]; intros i0 d mesh.
  - reflexivity.
  - cbn [forEach List.length].
    destruct (animate_spec tT time delta a i0 d mesh) as [_ [_ Hset]].
    destruct (animate tT time delta a i0 (d, mesh)) as [d1 m1].
    cbn [snd] in Hset.
    replace (i0 + S (List.length l))%nat with (S i0 + List.length l)%nat
      by lia.
    rewrite IH, Hset. apply setAt_skipn. lia.
Qed.

Lemma forEach_animate_length (l : list particle) :
  forall (i0 : nat) (d : Object3D) (mesh : InstancedMesh),
    List.length
      (instanceMatrix (snd (forEach (animate tT time delta) l i0 (d, mesh))))
    = List.length (instanceMatrix mesh).
Proof.
  induction l as [| a l IH]; intros i0 d mesh.
  - reflexivity.
  - cbn [forEach].
    destruct (animate_spec tT time delta a i0 d mesh) as [_ [_ Hset]].
    destruct (animate tT time delta a i0 (d, mesh)) as [d1 m1].
    cbn [snd] in Hset. rewrite IH, Hset. apply setAt_length.
Qed.

Lemma animate_rotation_scale (p : particle) (i : nat) (d : Object3D)
    (mesh : InstancedMesh) :
  let m := matrix (fst (animate tT time delta p i (d, mesh))) in
  m_rotation m
  = Vec3 (sin (time * speed p * 0.5 + rotationOffset p) * 0.2)
         (time * speed p + rotationOffset p)
         (cos (time * speed p * 0.5 + rotationOffset p) * 0.2)
  /\ m_scale m = Vec3 (scale p) (scale p) (scale p).
Proof. split; reflexivity. Qed.

Lemma forEach_animate_slot (l : list particle) :
  forall (i0 : nat) (d : Object3D) (mesh : InstancedMesh) (k : nat)
         (p : particle),
    (i0 + List.length l <= List.length (instanceMatrix mesh))%nat ->
    nth_error l k = Some p ->
    let m :=
      nth (i0 + k)
        (instanceMatrix (snd (forEach (animate tT time delta) l i0 (d, mesh))))
        identity in
    m_rotation m
    = Vec3 (sin (time * speed p * 0.5 + rotationOffset p) * 0.2)
           (time * speed p + rotationOffset p)
           (cos (time * speed p * 0.5 + rotationOffset p) * 0.2)
    /\ m_scale m = Vec3 (scale p) (scale p) (scale p).
Proof.
  induction l as [| a l IH]; intros i0 d mesh k p Hlen Hk; cbv zeta.
  - destruct k; discriminate.
  - cbn [forEach List.length] in *.
    destruct (animate_spec tT time delta a i0 d mesh) as [_ [_ Hset]].
    pose proof (animate_rotation_scale a i0 d mesh) as Hrs.
    destruct (animate tT time delta a i0 (d, mesh)) as [d1 m1].
    cbn [fst snd] in Hset, Hrs.
    assert (Hlen1 : List.length (instanceMatrix m1)
                    = List.length (instanceMatrix mesh))
      by (rewrite Hset; apply setAt_length).
    destruct k as [| k].
    + cbn [nth_error] in Hk. injection Hk as <-.
      destruct (forEach_animate_chain tT time delta l (S i0) d1 m1
                  ltac:(lia)) as [_ [Hlow _]].
      rewrite Nat.add_0_r, Hlow by lia.
      rewrite Hset, nth_setAt_same by lia. exact Hrs.
    + cbn [nth_error] in Hk.
      replace (i0 + S k)%nat with (S i0 + k)%nat by lia.
      apply IH; [lia | exact Hk].
Qed.

End NeedleFrame.

(** X10: a frame of the needles leaves the component untouched while the
    batch is not there yet; otherwise it keeps the size of the batch,
    leaves every slot after the last particle as it was and raises
    [needsUpdate]. *)
Theorem needle_useFrame_footprint (mode : string)
    (data : list NeedleParticles.particle) (time delta : R)
    (st : NeedleParticles.state) :
  let st' := NeedleParticles.useFrame mode data time delta st in
  match NeedleParticles.meshRef st with
  | None => st' = st
  | Some mesh =>
      exists mesh',
        NeedleParticles.meshRef st' = Some mesh'
        /\ List.length (NeedleParticles.instanceMatrix mesh')
           = List.length (NeedleParticles.instanceMatrix mesh)
        /\ NeedleParticles.needsUpdate mesh' = true
        /\ needleSlotsFrom (List.length data) st'
           = needleSlotsFrom (List.length data) st
  end.
Proof.
  cbv zeta. unfold needleSlotsFrom, NeedleParticles.useFrame.
  destruct (NeedleParticles.meshRef st) as [mesh |] eqn:Hmesh;
    [| reflexivity].
  pose proof (forEach_animate_skipn (targetT mode) time delta data 0
                (NeedleParticles.dummy st) mesh) as Hskip.
  pose proof (forEach_animate_length (targetT mode) time delta data 0
                (NeedleParticles.dummy st) mesh) as Hl.
  destruct (forEach (NeedleParticles.animate (targetT mode) time delta)
              data 0 (NeedleParticles.dummy st, mesh)) as [d' m'].
  cbn [snd Nat.add] in Hskip, Hl.
  cbn [NeedleParticles.meshRef NeedleParticles.instanceMatrix
       NeedleParticles.needsUpdate].
  eexists. split; [reflexivity |]. repeat split; assumption.
Qed.

(** X11: the rotation and the scale written for a needle are not damped:
    they depend only on the clock and on the needle's own speed, phase
    and scale, the tilt about the x and z axes never exceeds 0.2 radian
    and the scale is uniform. *)
Theorem needle_useFrame_rotation (mode : string)
    (data : list NeedleParticles.particle) (time delta : R)
    (st : NeedleParticles.state) (mesh : NeedleParticles.InstancedMesh)
    (k : nat) (p : NeedleParticles.particle) :
  NeedleParticles.meshRef st = Some mesh ->
  (List.length data
   <= List.length (NeedleParticles.instanceMatrix mesh))%nat ->
  nth_error data k = Some p ->
  let m := needleSlot k (NeedleParticles.useFrame mode data time delta st) in
  let a := time * NeedleParticles.speed p * 0.5
           + NeedleParticles.rotationOffset p in
  m_rotation m
  = Vec3 (sin a * 0.2)
         (time * NeedleParticles.speed p + NeedleParticles.rotationOffset p)
         (cos a * 0.2)
  /\ m_scale m
     = Vec3 (NeedleParticles.scale p) (NeedleParticles.scale p)
         (NeedleParticles.scale p)
  /\ Rabs (Vector3.x (m_rotation m)) <= 0.2
  /\ Rabs (Vector3.z (m_rotation m)) <= 0.2.
Proof.
  intros Hmesh Hlen Hk. cbv zeta.
  unfold needleSlot, NeedleParticles.useFrame. rewrite Hmesh.
  destruct (forEach_animate_slot (targetT mode) time delta data 0
              (NeedleParticles.dummy st) mesh k p ltac:(lia) Hk)
    as [Hrot Hscale].
  destruct (forEach (NeedleParticles.animate (targetT mode) time delta)
              data 0 (NeedleParticles.dummy st, mesh)) as [d' m'].
  cbn [snd Nat.add NeedleParticles.meshRef NeedleParticles.instanceMatrix]
    in *.
  rewrite Hrot, Hscale. cbn [Vector3.x Vector3.z].
  split; [reflexivity |]. split; [reflexivity |].
  split; apply Rabs_le.
  - pose proof (SIN_bound (time * NeedleParticles.speed p * 0.5
                           + NeedleParticles.rotationOffset p)). lra.
  - pose proof (COS_bound (time * NeedleParticles.speed p * 0.5
                           + NeedleParticles.rotationOffset p)). lra.
Qed.

Lemma needle_useFrame_rotation_witness :
  let m := needleSlot 1 TwoNeedles.frame1 in
  let a := 1 * NeedleParticles.speed TwoNeedles.p1 * 0.5
           + NeedleParticles.rotationOffset TwoNeedles.p1 in
  m_rotation m
  = Vec3 (sin a * 0.2)
         (1 * NeedleParticles.speed TwoNeedles.p1
          + NeedleParticles.rotationOffset TwoNeedles.p1)
         (cos a * 0.2)
  /\ m_scale m
     = Vec3 (NeedleParticles.scale TwoNeedles.p1)
         (NeedleParticles.scale TwoNeedles.p1)
         (NeedleParticles.scale TwoNeedles.p1)
  /\ Rabs (Vector3.x (m_rotation m)) <= 0.2
  /\ Rabs (Vector3.z (m_rotation m)) <= 0.2.
Proof.
  apply (needle_useFrame_rotation "SCATTERED" TwoNeedles.data 1 1
           TwoNeedles.start (NeedleParticles.newInstancedMesh 2) 1
           TwoNeedles.p1).
  - reflexivity.
  - cbn [TwoNeedles.data List.length NeedleParticles.newInstancedMesh
         NeedleParticles.instanceMatrix repeat].
    lia.
  - reflexivity.
Defined.

(** X12: when no time has passed ([delta = 0]) a frame draws every needle
    at the position held by [dummy], all at one point, wherever their
    targets are. *)
Theorem needle_useFrame_paused (mode : string)
    (data : list NeedleParticles.particle) (time : R)
    (st : NeedleParticles.state) (mesh : NeedleParticles.InstancedMesh)
    (k : nat) :
  NeedleParticles.meshRef st = Some mesh ->
  (List.length data
   <= List.length (NeedleParticles.instanceMatrix mesh))%nat ->
  (k < List.length data)%nat ->
  NeedleParticles.shown k (NeedleParticles.useFrame mode data time 0 st)
  = NeedleParticles.position (NeedleParticles.dummy st).
Proof.
  intros Hmesh Hlen.
  destruct (needle_useFrame_chain mode data time 0 st mesh Hmesh Hlen)
    as [_ [Hchain _]].
  induction k as [| k IH]; intros Hk.
  - destruct (nth_error data 0) as [p |] eqn:Hp.
    + rewrite (Hchain 0%nat p Hp). apply damp3_zero_delta.
    + apply nth_error_None in Hp. lia.
  - destruct (nth_error data (S k)) as [p |] eqn:Hp.
    + rewrite (Hchain (S k) p Hp), damp3_zero_delta. apply IH. lia.
    + apply nth_error_None in Hp. lia.
Qed.

Lemma needle_useFrame_paused_witness :
  NeedleParticles.shown 1
    (NeedleParticles.useFrame "SCATTERED" TwoNeedles.data 1 0
       TwoNeedles.start)
  = NeedleParticles.position (NeedleParticles.dummy TwoNeedles.start).
Proof.
  apply (needle_useFrame_paused "SCATTERED" TwoNeedles.data 1
           TwoNeedles.start (NeedleParticles.newInstancedMesh 2) 1).
  - reflexivity.
  - cbn [TwoNeedles.data List.length NeedleParticles.newInstancedMesh
         NeedleParticles.instanceMatrix repeat].
    lia.
  - cbn [TwoNeedles.data List.length]. lia.
Defined.

(** X13: in every frame of the needles the damp step of the first
    particle starts from the position [dummy] holds, the damp step of
    each later particle starts from the position just written for the
    particle before it, and [dummy] ends on the position of the last
    particle. *)
Theorem needle_loop_damps_from_previous_slot (mode : string)
    (data : list NeedleParticles.particle) (time delta : R)
    (st : NeedleParticles.state) (mesh : NeedleParticles.InstancedMesh) :
  NeedleParticles.meshRef st = Some mesh ->
  (List.length data
   <= List.length (NeedleParticles.instanceMatrix mesh))%nat ->
  let st' := NeedleParticles.useFrame mode data time delta st in
  (forall k p, nth_error data k = Some p ->
     NeedleParticles.shown k st'
     = damp3
         match k with
         | O => NeedleParticles.position (NeedleParticles.dummy st)
         | S k' => NeedleParticles.shown k' st'
         end
         (NeedleParticles.target mode p) 1.5 delta)
  /\ NeedleParticles.position (NeedleParticles.dummy st')
     = match data with
       | [] => NeedleParticles.position (NeedleParticles.dummy st)
       | _ :: l' => NeedleParticles.shown (List.length l') st'
       end.
Proof.
  intros Hmesh Hlen.
  exact (proj2 (needle_useFrame_chain mode data time delta st mesh
                  Hmesh Hlen)).
Qed.

Lemma needle_loop_damps_from_previous_slot_witness :
  (forall k p, nth_error TwoNeedles.data k = Some p ->
     NeedleParticles.shown k TwoNeedles.frame1
     = damp3
         match k with
         | O => NeedleParticles.position
                  (NeedleParticles.dummy TwoNeedles.start)
         | S k' => NeedleParticles.shown k' TwoNeedles.frame1
         end
         (NeedleParticles.target "SCATTERED" p) 1.5 1)
  /\ NeedleParticles.position (NeedleParticles.dummy TwoNeedles.frame1)
     = NeedleParticles.shown 1 TwoNeedles.frame1.
Proof.
  apply (needle_loop_damps_from_previous_slot "SCATTERED" TwoNeedles.data
           1 1 TwoNeedles.start (NeedleParticles.newInstancedMesh 2)).
  - reflexivity.
  - cbn [TwoNeedles.data List.length NeedleParticles.newInstancedMesh
         NeedleParticles.instanceMatrix repeat].
    lia.
Defined.

(** ** One frame of a photo *)

Lemma damp_compose (current target rate t1 t2 : R) :
  damp (damp current target rate t1) target rate t2
  = damp current target rate (t1 + t2).
Proof.
  unfold damp.
  replace (- rate * (t1 + t2)) with (- rate * t1 + - rate * t2) by ring.
  rewrite exp_plus. ring.
Qed.

Lemma lerp_0 (a b : R) : lerp a b 0 = a.
Proof. unfold lerp. ring. Qed.

Lemma lerp_1 (a b : R) : lerp a b 1 = b.
Proof. unfold lerp. ring. Qed.

Lemma damp_step_bound (current target rate dt : R) :
  0 <= rate -> 0 <= dt ->
  Rabs (damp current target rate dt - current)
  <= rate * dt * Rabs (target - current)
  /\ Rabs (damp current target rate dt - target)
     <= Rabs (current - target).
Proof.
  intros Hr Hd.
  assert (Hrd : 0 <= rate * dt) by (apply Rmult_le_pos; assumption).
  pose proof (exp_pos (- rate * dt)) as Hpos.
  pose proof (exp_ineq1_le (- rate * dt)) as Hlow.
  assert (Hle : exp (- rate * dt) <= 1).
  { destruct (Req_dec (rate * dt) 0) as [Hz | Hnz].
    - replace (- rate * dt) with 0 by lra. rewrite exp_0. lra.
    - left. rewrite <- exp_0. apply exp_increasing. lra. }
  set (e := exp (- rate * dt)) in *.
  split.
  - replace (damp current target rate dt - current)
      with ((1 - e) * (target - current)) by (unfold damp; fold e; ring).
    rewrite Rabs_mult, (Rabs_pos_eq (1 - e)) by lra.
    apply Rmult_le_compat_r; [apply Rabs_pos | lra].
  - rewrite damp_distance. fold e.
    rewrite Rabs_mult, (Rabs_pos_eq e) by lra.
    rewrite <- (Rmult_1_r (Rabs (current - target))) at 2.
    apply Rmult_le_compat_l; [apply Rabs_pos | lra].
Qed.

(** X14: the photo animation does not depend on the frame rate: two
    consecutive frames of lengths [d1] and [d2] leave the mesh exactly
    where one frame of length [d1 + d2], run with the camera and clock
    of the second, leaves it. *)
Theorem photo_useFrame_two_frames (mode : string)
    (data : PhotoParticle.BaseParticleData) (camera1 camera2 : Vector3.t)
    (time1 time2 d1 d2 : R) (ref : option PhotoParticle.Mesh) :
  PhotoParticle.useFrame mode data camera2 time2 d2
    (PhotoParticle.useFrame mode data camera1 time1 d1 ref)
  = PhotoParticle.useFrame mode data camera2 time2 (d1 + d2) ref.
Proof.
  destruct ref as [current |]; [| reflexivity].
  unfold PhotoParticle.useFrame.
  cbn [PhotoParticle.position Vector3.x Vector3.y Vector3.z].
  rewrite !damp_compose. reflexivity.
Qed.

(** X15: in one frame of length [delta >= 0] a photo moves, on every
    axis, by at most [1.2 * delta] times its distance to the target, and
    never ends farther from the target than it started. *)
Theorem photo_useFrame_bounded_step (mode : string)
    (data : PhotoParticle.BaseParticleData) (camera : Vector3.t)
    (time delta : R) (current : PhotoParticle.Mesh) :
  0 <= delta ->
  exists current' : PhotoParticle.Mesh,
    PhotoParticle.useFrame mode data camera time delta (Some current)
    = Some current'
    /\ forall axis : Vector3.t -> R,
         In axis [Vector3.x; Vector3.y; Vector3.z] ->
         let old := axis (PhotoParticle.position current) in
         let new := axis (PhotoParticle.position current') in
         let goal := axis (PhotoParticle.target mode data) in
         Rabs (new - old) <= 1.2 * delta * Rabs (goal - old)
         /\ Rabs (new - goal) <= Rabs (old - goal).
Proof.
  intros Hd. eexists. split; [reflexivity |].
  intros axis Haxis. cbv zeta.
  cbn [In] in Haxis.
  destruct Haxis as [<- | [<- | [<- | []]]];
    cbn [PhotoParticle.position PhotoParticle.target
         Vector3.x Vector3.y Vector3.z];
    apply damp_step_bound; lra.
Qed.

Lemma photo_useFrame_bounded_step_witness :
  exists current' : PhotoParticle.Mesh,
    PhotoParticle.useFrame "TREE_SHAPE"
      {| PhotoParticle.treePos := Vec3 1 2 3;
         PhotoParticle.scatterPos := origin;
         PhotoParticle.speed := 0.1;
         PhotoParticle.rotationOffset := 0 |}
      (Vec3 0 0 18) 0 1 (Some PhotoParticle.newMesh)
    = Some current'
    /\ forall axis : Vector3.t -> R,
         In axis [Vector3.x; Vector3.y; Vector3.z] ->
         let old := axis (PhotoParticle.position PhotoParticle.newMesh) in
         let new := axis (PhotoParticle.position current') in
         let goal :=
           axis (PhotoParticle.target "TREE_SHAPE"
                   {| PhotoParticle.treePos := Vec3 1 2 3;
                      PhotoParticle.scatterPos := origin;
                      PhotoParticle.speed := 0.1;
                      PhotoParticle.rotationOffset := 0 |}) in
         Rabs (new - old) <= 1.2 * 1 * Rabs (goal - old)
         /\ Rabs (new - goal) <= Rabs (old - goal).
Proof.
  apply (photo_useFrame_bounded_step "TREE_SHAPE"
           {| PhotoParticle.treePos := Vec3 1 2 3;
              PhotoParticle.scatterPos := origin;
              PhotoParticle.speed := 0.1;
              PhotoParticle.rotationOffset := 0 |}
           (Vec3 0 0 18) 0 1 PhotoParticle.newMesh).
  lra.
Defined.

(** X16: a frame of a photo damps its own position towards its tree
    position when the mode is TREE_SHAPE and towards its scatter position
    for every other mode, turns it to the camera whatever its previous
    orientation was, and rolls it by at most 0.1 radian; without a mesh
    the frame does nothing. *)
Theorem photo_useFrame_result (mode : string)
    (data : PhotoParticle.BaseParticleData) (camera : Vector3.t)
    (time delta : R) (current : PhotoParticle.Mesh) :
  PhotoParticle.useFrame mode data camera time delta None = None
  /\ exists current' : PhotoParticle.Mesh,
       PhotoParticle.useFrame mode data camera time delta (Some current)
       = Some current'
       /\ PhotoParticle.position current'
          = damp3 (PhotoParticle.position current)
              (if String.eqb mode "TREE_SHAPE"
               then PhotoParticle.treePos data
               else PhotoParticle.scatterPos data)
              1.2 delta
       /\ PhotoParticle.lookAt current' = camera
       /\ PhotoParticle.rotateZ current'
          = sin (time * PhotoParticle.speed data
                 + PhotoParticle.rotationOffset data) * 0.1
       /\ Rabs (PhotoParticle.rotateZ current') <= 0.1.
Proof.
  split; [reflexivity |]. eexists. split; [reflexivity |].
  cbn [PhotoParticle.position PhotoParticle.lookAt PhotoParticle.rotateZ].
  split; [| split; [reflexivity | split; [reflexivity |]]].
  - unfold damp3, targetT.
    destruct (String.eqb mode "TREE_SHAPE");
      rewrite ?lerp_0, ?lerp_1; reflexivity.
  - apply Rabs_le.
    pose proof (SIN_bound (time * PhotoParticle.speed data
                           + PhotoParticle.rotationOffset data)).
    lra.
Qed.

(** ** The application state *)

Lemma mapi_map_fst {A B C : Type} (f : A -> nat -> B) (g : B -> C)
    (h : A -> nat -> C) (l : list A) (i : nat) :
  (forall a k, g (f a k) = h a k) ->
  map g (mapi f l i) = mapi h l i.
Proof.
  intros Hgf. revert i. induction l as [| a l IH]; intros i; cbn [mapi map].
  - reflexivity.
  - now rewrite Hgf, IH.
Qed.

Lemma mapi_index (l : list string) (i : nat) :
  mapi (fun _ k => k) l i = seq i (List.length l).
Proof.
  revert i. induction l as [| a l IH]; intros i; cbn [mapi List.length seq].
  - reflexivity.
  - now rewrite IH.
Qed.

Lemma mapi_const_fst {A : Type} (l : list A) (i : nat) :
  mapi (fun a _ => a) l i = l.
Proof.
  revert i. induction l as [| a l IH]; intros i; cbn [mapi].
  - reflexivity.
  - now rewrite IH.
Qed.

Lemma cleanup_app (imageUrls revoked : list string) :
  ObjectURLs.cleanup imageUrls revoked = revoked ++ imageUrls.
Proof.
  unfold ObjectURLs.cleanup. generalize 0%nat. revert revoked.
  induction imageUrls as [| u l IH]; intros revoked i; cbn [forEach].
  - now rewrite app_nil_r.
  - rewrite IH, <- app_assoc. reflexivity.
Qed.

Lemma photos_are_numbered_core (st : App.state) :
  map App.url (App.photos st) = App.imageUrls st
  /\ map App.index (App.photos st)
     = seq 0 (List.length (App.imageUrls st))
  /\ map App.total (App.photos st)
     = repeat (List.length (App.imageUrls st))
         (List.length (App.imageUrls st))
  /\ map App.p_mode (App.photos st)
     = repeat (App.mode st) (List.length (App.imageUrls st)).
Proof.
  unfold App.photos.
  set (K := List.length (App.imageUrls st)).
  assert (Hconst : forall (C : Type) (c : C) (l : list string) (i : nat),
             mapi (fun _ _ => c) l i = repeat c (List.length l)).
  { intros C c l. induction l as [| a l IH]; intros i;
      cbn [mapi List.length repeat]; [reflexivity | now rewrite IH]. }
  repeat split.
  - rewrite (mapi_map_fst _ App.url (fun u _ => u)) by reflexivity.
    apply mapi_const_fst.
  - rewrite (mapi_map_fst _ App.index (fun _ k => k)) by reflexivity.
    apply mapi_index.
  - rewrite (mapi_map_fst _ App.total (fun _ _ => K)) by reflexivity.
    apply Hconst.
  - rewrite (mapi_map_fst _ App.p_mode (fun _ _ => App.mode st))
      by reflexivity.
    apply Hconst.
Qed.

(** X17: the photos are rendered in the order of the urls, numbered
    0, 1, 2, ... without gaps, and each is given the size of the whole
    collection as its total and the current mode. *)
Theorem photos_are_numbered (st : App.state) :
  map App.url (App.photos st) = App.imageUrls st
  /\ map App.index (App.photos st)
     = seq 0 (List.length (App.imageUrls st))
  /\ map App.total (App.photos st)
     = repeat (List.length (App.imageUrls st))
         (List.length (App.imageUrls st))
  /\ map App.p_mode (App.photos st)
     = repeat (App.mode st) (List.length (App.imageUrls st)).
Proof. apply photos_are_numbered_core. Qed.

(** X18: a change event without a file list changes nothing; one with an
    empty file list adds nothing but still sets the mode to SCATTERED. *)
Theorem handleImageUpload_nothing_selected
    (File : Type) (createObjectURL : File -> string) (st : App.state) :
  App.handleImageUpload File createObjectURL None st = st
  /\ App.handleImageUpload File createObjectURL (Some []) st
     = {| App.mode := "SCATTERED"; App.imageUrls := App.imageUrls st |}.
Proof.
  split; [reflexivity |].
  unfold App.handleImageUpload. cbn [map]. now rewrite app_nil_r.
Qed.

(** X19: two uploads in a row leave the same state as one upload of the
    two file lists joined, and a toggle between them does not matter. *)
Theorem handleImageUpload_compose
    (File : Type) (createObjectURL : File -> string)
    (files1 files2 : list File) (st : App.state) :
  App.handleImageUpload File createObjectURL (Some files2)
    (App.handleImageUpload File createObjectURL (Some files1) st)
  = App.handleImageUpload File createObjectURL (Some (files1 ++ files2)) st
  /\ App.handleImageUpload File createObjectURL (Some files2)
       (App.toggle
          (App.handleImageUpload File createObjectURL (Some files1) st))
     = App.handleImageUpload File createObjectURL
         (Some (files1 ++ files2)) st.
Proof.
  unfold App.handleImageUpload, App.toggle. cbn [App.imageUrls App.mode].
  rewrite map_app, app_assoc. split; reflexivity.
Qed.

(** X20: from one of the two defined modes, a click on the toggle button
    flips the blend factor between 0 and 1, keeps the photos, and a
    second click restores the state. *)
Theorem toggle_twice (st : App.state) :
  App.mode st = "SCATTERED"%string \/ App.mode st = "TREE_SHAPE"%string ->
  App.toggle (App.toggle st) = st
  /\ targetT (App.mode (App.toggle st)) = 1 - targetT (App.mode st)
  /\ App.imageUrls (App.toggle st) = App.imageUrls st.
Proof.
  destruct st as [m urls]. cbn [App.mode].
  intros [-> | ->]; unfold App.toggle, targetT; cbn; repeat split; lra.
Qed.

Lemma toggle_twice_witness :
  App.toggle (App.toggle App.initial) = App.initial
  /\ targetT (App.mode (App.toggle App.initial))
     = 1 - targetT (App.mode App.initial)
  /\ App.imageUrls (App.toggle App.initial) = App.imageUrls App.initial.
Proof.
  apply (toggle_twice App.initial). left. reflexivity.
Defined.

(** X21: after an upload the counter shows the old number of photos plus
    the number of files, the button offers to gather, the camera does not
    auto-rotate and both animators aim at the scatter positions. *)
Theorem upload_view
    (File : Type) (createObjectURL : File -> string)
    (files : list File) (st : App.state) :
  let st' := App.handleImageUpload File createObjectURL (Some files) st in
  AppView.loadedPhotos st'
  = (AppView.loadedPhotos st + List.length files)%nat
  /\ AppView.buttonLabel st' = "GATHER MEMORIES"%string
  /\ AppView.autoRotate st' = false
  /\ targetT (App.mode st') = 0.
Proof.
  cbv zeta. unfold AppView.loadedPhotos, AppView.buttonLabel,
    AppView.autoRotate, App.handleImageUpload.
  cbn [App.imageUrls App.mode].
  rewrite length_app, length_map. repeat split.
Qed.

(** X22: every upload with a file list revokes, in order, all the urls
    the collection held before it, and those urls stay in the collection
    and keep being rendered; a click on the toggle button or a change
    event without a file list revokes nothing; unmounting revokes the
    urls of the final collection. *)
Theorem upload_revokes_previous_urls
    (File : Type) (createObjectURL : File -> string)
    (files : list File) (w : ObjectURLs.world) :
  let old := App.imageUrls (ObjectURLs.app w) in
  let w' := ObjectURLs.upload File createObjectURL (Some files) w in
  ObjectURLs.revoked w' = ObjectURLs.revoked w ++ old
  /\ App.imageUrls (ObjectURLs.app w') = old ++ map createObjectURL files
  /\ incl old (ObjectURLs.revoked w')
  /\ incl old (map App.url (App.photos (ObjectURLs.app w')))
  /\ ObjectURLs.revoked (ObjectURLs.click w) = ObjectURLs.revoked w
  /\ ObjectURLs.upload File createObjectURL None w = w
  /\ ObjectURLs.unmount w = ObjectURLs.revoked w ++ old.
Proof.
  cbv zeta. unfold ObjectURLs.upload, ObjectURLs.unmount, ObjectURLs.click.
  cbn [ObjectURLs.app ObjectURLs.revoked].
  rewrite cleanup_app.
  destruct (photos_are_numbered_core
              (App.handleImageUpload File createObjectURL (Some files)
                 (ObjectURLs.app w))) as [Hurls _].
  rewrite Hurls.
  unfold App.handleImageUpload. cbn [App.imageUrls].
  repeat split.
  - apply incl_appr, incl_refl.
  - apply incl_appl, incl_refl.
Qed.

(** ** Growing the collection *)

Lemma photo_treePos_height (draws : nat -> R) (index total n : nat)
    (d : PhotoParticle.BaseParticleData) :
  (index < total)%nat ->
  fst (PhotoParticle.factory draws index total n) = Finite d ->
  Vector3.y (PhotoParticle.treePos d)
  = INR index / INR total * 11 - 5.
Proof.
  intros Hlt Hd.
  destruct (photo_factory_finite draws index total n ltac:(lia))
    as [q [Hq [Htree _]]].
  rewrite Hq in Hd. cbn [fst] in Hd. injection Hd as <-.
  rewrite getPhyllotaxisPosition_finite in Htree
    by (apply not_0_INR; lia).
  cbn [fst js_map] in Htree. injection Htree as <-.
  unfold Vector3.add. cbn [Vector3.y]. lra.
Qed.

(** X23: when the collection grows from [total] to [total'] photos, the
    photo of index 0 keeps its formation height -5 and every other photo
    gets a strictly lower formation height, whatever the random draws. *)
Theorem photo_height_drops_on_growth
    (draws : nat -> R) (index total total' n n' : nat) :
  (index < total)%nat ->
  (total < total')%nat ->
  exists d d' : PhotoParticle.BaseParticleData,
    fst (PhotoParticle.factory draws index total n) = Finite d
    /\ fst (PhotoParticle.factory draws index total' n') = Finite d'
    /\ (index = 0%nat ->
        Vector3.y (PhotoParticle.treePos d) = -5
        /\ Vector3.y (PhotoParticle.treePos d') = -5)
    /\ (index <> 0%nat ->
        Vector3.y (PhotoParticle.treePos d')
        < Vector3.y (PhotoParticle.treePos d)).
Proof.
  intros Hlt Hgrow.
  destruct (photo_factory_finite draws index total n ltac:(lia))
    as [d [Hd _]].
  destruct (photo_factory_finite draws index total' n' ltac:(lia))
    as [d' [Hd' _]].
  exists d, d'.
  assert (Hf : fst (PhotoParticle.factory draws index total n) = Finite d)
    by now rewrite Hd.
  assert (Hf' : fst (PhotoParticle.factory draws index total' n')
                = Finite d') by now rewrite Hd'.
  split; [exact Hf |]. split; [exact Hf' |].
  rewrite (photo_treePos_height draws index total n d Hlt Hf).
  rewrite (photo_treePos_height draws index total' n' d' ltac:(lia) Hf').
  split.
  - intros ->. cbn [INR]. unfold Rdiv. rewrite !Rmult_0_l. lra.
  - intros Hne.
    assert (Hi : 0 < INR index) by (apply lt_0_INR; lia).
    assert (Ht : 0 < INR total) by (apply lt_0_INR; lia).
    assert (Ht' : INR total < INR total') by (apply lt_INR; lia).
    assert (Hinv : / INR total' < / INR total)
      by (apply Rinv_lt_contravar; [apply Rmult_lt_0_compat |]; lra).
    assert (INR index * / INR total' < INR index * / INR total)
      by (apply Rmult_lt_compat_l; assumption).
    unfold Rdiv. lra.
Qed.

Lemma photo_height_drops_on_growth_witness :
  exists d d' : PhotoParticle.BaseParticleData,
    fst (PhotoParticle.factory halves 1 2 0%nat) = Finite d
    /\ fst (PhotoParticle.factory halves 1 3 6%nat) = Finite d'
    /\ (1%nat = 0%nat ->
        Vector3.y (PhotoParticle.treePos d) = -5
        /\ Vector3.y (PhotoParticle.treePos d') = -5)
    /\ (1%nat <> 0%nat ->
        Vector3.y (PhotoParticle.treePos d')
        < Vector3.y (PhotoParticle.treePos d)).
Proof.
  apply (photo_height_drops_on_growth halves 1 2 3 0 6); lia.
Defined.
